(** * Outbound queue manager of the browser tracker core

    Shallow embedding of
    [src/libraries/browser-tracker-core/src/tracker/out_queue.ts]
    ([OutQueueManager]): the values held in [outQueue], the batch
    selection of the drain loop, the retry classifier, enqueueing with the
    oversized-event bypass, the drain [executeQueue] with its request
    callbacks, and the construction-time load of the persisted queue. *)

From Stdlib Require Import Ascii String List ZArith Bool Lia.
Import ListNotations.
Open Scope string_scope.

(** ** JavaScript values found in [outQueue]

    The queue is typed [Array<PostEvent> | Array<string>], but after a
    reload it is whatever [JSON.parse] produced, so the model admits the
    other JavaScript values the failsafe of [executeQueue] talks about. *)

(** A flat record of string fields, the [evt] of a [PostEvent]. *)
Definition Record_ := list (string * string).

Inductive entry : Type :=
  (** [{ evt, bytes }], built by [getBody] *)
  | PostEvent (evt : Record_) (bytes : Z)
  (** a GET querystring, built by [getQuerystring] *)
  | QStr (s : string)
  | JNull
  | JUndefined
  | JBool (b : bool)
  | JNum (n : Z)
  (** any other object or array with no [bytes] property: [has_evt] is
      ['evt' in v], [str] is [String(v)]. Objects whose [bytes] property
      holds something else than a number are left out of the model. *)
  | JObj (has_evt : bool) (str : string).

(** [typeof v] *)
Definition typeof (v : entry) : string :=
  match v with
  | PostEvent _ _ | JNull | JObj _ _ => "object"
  | QStr _ => "string"
  | JUndefined => "undefined"
  | JBool _ => "boolean"
  | JNum _ => "number"
  end.

(** Exceptions raised by the code: [TypeError] from a property access or
    an [in] test on [null], and the string thrown by [executeQueue]. *)
Inductive exn : Type :=
  | TypeError
  | SyntaxError          (* JSON.parse *)
  | SecurityError        (* window.localStorage *)
  | ReferenceError       (* new XMLHttpRequest() when window.XMLHttpRequest is absent *)
  | InvalidAccessError   (* xhr.timeout set on a synchronous request *)
  | NoCollectorConfigured.

(** Results of JavaScript expressions that may throw. *)
Inductive result (A : Type) : Type :=
  | Ok (a : A)
  | Throw (e : exn).
Arguments Ok {A} a.
Arguments Throw {A} e.

(** ['evt' in v]; the [in] operator throws on a non-object. *)
Definition in_evt (v : entry) : result bool :=
  match v with
  | PostEvent _ _ => Ok true
  | JObj h _ => Ok h
  | _ => Throw TypeError
  end.

(** [postable(queue)]:
    [typeof queue[0] === 'object' && 'evt' in queue[0]] *)
Definition postable (queue : list entry) : result bool :=
  match queue with
  | [] => Ok false                       (* typeof undefined *)
  | v :: _ => if String.eqb (typeof v) "object" then in_evt v else Ok false
  end.

(** ** Numbers with NaN

    [byteCount += queue[i].bytes] adds [undefined] when an entry has no
    [bytes] field, which makes [byteCount] NaN; [None] stands for NaN. *)

Definition js_add (a b : option Z) : option Z :=
  match a, b with
  | Some x, Some y => Some (x + y)%Z
  | _, _ => None
  end.

(** [a >= m]; any comparison with NaN is false. *)
Definition js_ge (a : option Z) (m : Z) : bool :=
  match a with
  | Some x => (m <=? x)%Z
  | None => false
  end.

(** [v.bytes]: the number of a post-record, [undefined] ([None]) on a
    primitive or an object without that property, or a [TypeError] on
    [null] and [undefined]. *)
Definition get_bytes (v : entry) : result (option Z) :=
  match v with
  | PostEvent _ b => Ok (Some b)
  | JNull | JUndefined => Throw TypeError
  | _ => Ok None
  end.

(** ** [chooseHowManyToSend]

    [while (numberToSend < queue.length) { byteCount += queue[numberToSend].bytes;
       if (byteCount >= maxPostBytes) break; else numberToSend += 1; }]
    The loop walks the queue from the front; [rest] is
    [queue.slice(numberToSend)]. *)
Fixpoint choose_loop (maxPostBytes : Z) (byteCount : option Z)
    (rest : list entry) (numberToSend : nat) : result nat :=
  match rest with
  | [] => Ok numberToSend
  | v :: rest' =>
      match get_bytes v with
      | Throw e => Throw e
      | Ok b =>
          let byteCount' := js_add byteCount b in
          if js_ge byteCount' maxPostBytes then Ok numberToSend
          else choose_loop maxPostBytes byteCount' rest' (S numberToSend)
      end
  end.

Definition chooseHowManyToSend (maxPostBytes : Z) (queue : list entry)
    : result nat :=
  choose_loop maxPostBytes (Some 0%Z) queue 0.

(** ** Retry classification *)

(** [statusCode >= 200 && statusCode < 300] *)
Definition isSuccessfulRequest (statusCode : Z) : bool :=
  (200 <=? statusCode)%Z && (statusCode <? 300)%Z.

(** [Array.prototype.includes] on a list of numbers *)
Definition includes (l : list Z) (x : Z) : bool := existsb (Z.eqb x) l.

Definition shouldRetryForStatusCode (retryFailedRequests : bool)
    (retryStatusCodes dontRetryStatusCodes : list Z) (statusCode : Z) : bool :=
  if isSuccessfulRequest statusCode then false
  else if negb retryFailedRequests then false
  else if includes retryStatusCodes statusCode then true
  else negb (includes dontRetryStatusCodes statusCode).

(** ** Configuration, JavaScript built-ins, payloads *)

(** The options of [OutQueueManager] after transport resolution; these
    do not change after construction. *)
Record Config : Type := mkConfig {
  usePost : bool;
  useXhr : bool;
  useBeacon : bool;
  useStm : bool;
  postPath : string;
  maxPostBytes : Z;
  maxGetBytes : Z;
  maxLocalStorageQueueSize : nat;
  retryStatusCodes : list Z;
  dontRetryStatusCodes : list Z;
  retryFailedRequests : bool;
  idService : option string;
  hasXMLHttpRequest : bool   (* window.XMLHttpRequest; [useXhr] implies it *)
}.

(** [path = usePost ? postPath : '/i'] *)
Definition path (cfg : Config) : string :=
  if usePost cfg then postPath cfg else "/i".

(** Values of a [Payload] field. *)
Inductive pval : Type :=
  | PVStr (s : string)
  | PVNum (n : Z)
  | PVBool (b : bool).

(** A [Payload]: its own keys in enumeration order. *)
Definition Payload := list (string * pval).

(** Browser built-ins the code calls; their results are not fixed by the
    source, so the development is generic in them. *)
(** What [JSON.parse] of the persisted slot yields. *)
Inductive parsed : Type :=
  | PArray (items : list entry)
  | PNotArray.

Record JsEnv : Type := mkJsEnv {
  JSON_parse : string -> result parsed;       (* Throw SyntaxError on bad JSON *)
  toString : pval -> string;                  (* (value as Object).toString() *)
  JSON_stringify : Record_ -> string;         (* JSON.stringify of a flat record *)
  encodeURIComponent : string -> string;
  charCodes : string -> list Z;               (* s.charCodeAt(i) for each i *)
  dateNow : string                            (* new Date().getTime() as text *)
}.

Section Encoding.
Variable env : JsEnv.

(** [getUTF8Length] on the UTF-16 code units of a string. *)
Fixpoint utf8_length (cs : list Z) : Z :=
  match cs with
  | [] => 0
  | code :: rest =>
      if (code <=? 127)%Z then 1 + utf8_length rest
      else if (code <=? 2047)%Z then 2 + utf8_length rest
      else if (55296 <=? code)%Z && (code <=? 57343)%Z then
        (* surrogate pair: 4 bytes, and the next code unit is skipped *)
        match rest with
        | [] => 4
        | _ :: rest' => 4 + utf8_length rest'
        end
      else if (code <? 65535)%Z then 3 + utf8_length rest
      else 4 + utf8_length rest
  end%Z.

Definition getUTF8Length (s : string) : Z := utf8_length (charCodes env s).

(** [getBody]: stringify every field, measure the JSON text; the pair is
    [{ evt, bytes }]. *)
Definition getBody (request : Payload) : Record_ * Z :=
  let cleanedRequest := map (fun '(k, v) => (k, toString env v)) request in
  (cleanedRequest, getUTF8Length (JSON_stringify env cleanedRequest)).

Definition lowPriorityKey (k : string) : bool :=
  String.eqb k "co" || String.eqb k "cx".

Fixpoint assoc (k : string) (request : Payload) : option pval :=
  match request with
  | [] => None
  | (k', v) :: rest => if String.eqb k k' then Some v else assoc k rest
  end.

(** The first loop of [getQuerystring]: every key but [co] and [cx]. *)
Fixpoint qs_pairs (firstPair : bool) (request : Payload) : string :=
  match request with
  | [] => ""
  | (k, v) :: rest =>
      if lowPriorityKey k then qs_pairs firstPair rest
      else (if firstPair then "" else "&") ++
           encodeURIComponent env k ++ "=" ++
           encodeURIComponent env (toString env v) ++ qs_pairs false rest
  end.

(** The second loop: [co] then [cx], when present. *)
Definition qs_context (request : Payload) : string :=
  String.concat ""
    (map (fun contextKey =>
            match assoc contextKey request with
            | Some v => "&" ++ contextKey ++ "=" ++ encodeURIComponent env (toString env v)
            | None => ""
            end) ["co"; "cx"]).

Definition getQuerystring (request : Payload) : string :=
  "?" ++ qs_pairs true request ++ qs_context request.

(** [s.replace('?', r)]: replaces the first ['?'] only. *)
Fixpoint replace_first_qmark (r s : string) : string :=
  match s with
  | EmptyString => EmptyString
  | String c s' =>
      if Ascii.eqb c "?"%char then r ++ s' else String c (replace_first_qmark r s')
  end.

End Encoding.

(** ** Manager state *)

(** The request of the drain loop that awaits its outcome. [XhrReq]
    records whether the request was opened synchronously and what
    [setXhrCallbacks] closes over: [numberToSend] and the batch. [ImageReq] is the pixel image whose
    [loading] flag is still set; an image whose [loading] was cleared
    ignores its events and is not kept. *)
Inductive Inflight : Type :=
  | XhrReq (sync : bool) (numberToSend : nat) (batch : list entry)
  | ImageReq
  | IdServiceReq.

(** The variables the closure of [OutQueueManager] mutates, the browser
    behaviour that varies over time, and two ghost fields that only
    record history for the ordering theorem. *)
Record State : Type := mkState {
  executingQueue : bool;   (* the single-flight flag of the drain *)
  configCollectorUrl : option string;   (* [None] while [undefined] *)
  outQueue : list entry;   (* the in-memory queue *)
  idServiceCalled : bool;
  useLocalStorage : bool;   (* mutable through [setUseLocalStorage] *)
  anonymousTracking : bool;   (* mutable through [setAnonymousTracking] *)
  bufferSize : Z;   (* mutable through [setBufferSize] *)
  bufferFlusherRegistered : bool;   (* [useXhr && bufferSize > 1] at construction *)
  storageSlot : option (list entry);   (* the queue as last written to localStorage by this instance *)
  storageWritable : bool;   (* browser: whether a localStorage write succeeds *)
  beaconAccepts : bool;   (* browser: what [navigator.sendBeacon] returns *)
  inflight : option Inflight;   (* the drain's request awaiting its outcome *)
  bypassInflight : list entry;   (* bodies of requests sent without queueing, awaiting their outcome *)
  shifted : nat;   (* ghost: number of entries shifted off the front of [outQueue] so far *)
  history : list entry   (* ghost: the loaded queue followed by every entry ever pushed *)
}.

Definition set_executingQueue (v : bool) (s : State) : State :=
  {| executingQueue := v; configCollectorUrl := configCollectorUrl s; outQueue := outQueue s;
     idServiceCalled := idServiceCalled s; useLocalStorage := useLocalStorage s; anonymousTracking := anonymousTracking s;
     bufferSize := bufferSize s; bufferFlusherRegistered := bufferFlusherRegistered s; storageSlot := storageSlot s;
     storageWritable := storageWritable s; beaconAccepts := beaconAccepts s; inflight := inflight s;
     bypassInflight := bypassInflight s; shifted := shifted s; history := history s |}.
Definition set_configCollectorUrl (v : option string) (s : State) : State :=
  {| executingQueue := executingQueue s; configCollectorUrl := v; outQueue := outQueue s;
     idServiceCalled := idServiceCalled s; useLocalStorage := useLocalStorage s; anonymousTracking := anonymousTracking s;
     bufferSize := bufferSize s; bufferFlusherRegistered := bufferFlusherRegistered s; storageSlot := storageSlot s;
     storageWritable := storageWritable s; beaconAccepts := beaconAccepts s; inflight := inflight s;
     bypassInflight := bypassInflight s; shifted := shifted s; history := history s |}.
Definition set_outQueue (v : list entry) (s : State) : State :=
  {| executingQueue := executingQueue s; configCollectorUrl := configCollectorUrl s; outQueue := v;
     idServiceCalled := idServiceCalled s; useLocalStorage := useLocalStorage s; anonymousTracking := anonymousTracking s;
     bufferSize := bufferSize s; bufferFlusherRegistered := bufferFlusherRegistered s; storageSlot := storageSlot s;
     storageWritable := storageWritable s; beaconAccepts := beaconAccepts s; inflight := inflight s;
     bypassInflight := bypassInflight s; shifted := shifted s; history := history s |}.
Definition set_idServiceCalled (v : bool) (s : State) : State :=
  {| executingQueue := executingQueue s; configCollectorUrl := configCollectorUrl s; outQueue := outQueue s;
     idServiceCalled := v; useLocalStorage := useLocalStorage s; anonymousTracking := anonymousTracking s;
     bufferSize := bufferSize s; bufferFlusherRegistered := bufferFlusherRegistered s; storageSlot := storageSlot s;
     storageWritable := storageWritable s; beaconAccepts := beaconAccepts s; inflight := inflight s;
     bypassInflight := bypassInflight s; shifted := shifted s; history := history s |}.
Definition set_useLocalStorage (v : bool) (s : State) : State :=
  {| executingQueue := executingQueue s; configCollectorUrl := configCollectorUrl s; outQueue := outQueue s;
     idServiceCalled := idServiceCalled s; useLocalStorage := v; anonymousTracking := anonymousTracking s;
     bufferSize := bufferSize s; bufferFlusherRegistered := bufferFlusherRegistered s; storageSlot := storageSlot s;
     storageWritable := storageWritable s; beaconAccepts := beaconAccepts s; inflight := inflight s;
     bypassInflight := bypassInflight s; shifted := shifted s; history := history s |}.
Definition set_anonymousTracking (v : bool) (s : State) : State :=
  {| executingQueue := executingQueue s; configCollectorUrl := configCollectorUrl s; outQueue := outQueue s;
     idServiceCalled := idServiceCalled s; useLocalStorage := useLocalStorage s; anonymousTracking := v;
     bufferSize := bufferSize s; bufferFlusherRegistered := bufferFlusherRegistered s; storageSlot := storageSlot s;
     storageWritable := storageWritable s; beaconAccepts := beaconAccepts s; inflight := inflight s;
     bypassInflight := bypassInflight s; shifted := shifted s; history := history s |}.
Definition set_bufferSize (v : Z) (s : State) : State :=
  {| executingQueue := executingQueue s; configCollectorUrl := configCollectorUrl s; outQueue := outQueue s;
     idServiceCalled := idServiceCalled s; useLocalStorage := useLocalStorage s; anonymousTracking := anonymousTracking s;
     bufferSize := v; bufferFlusherRegistered := bufferFlusherRegistered s; storageSlot := storageSlot s;
     storageWritable := storageWritable s; beaconAccepts := beaconAccepts s; inflight := inflight s;
     bypassInflight := bypassInflight s; shifted := shifted s; history := history s |}.
Definition set_bufferFlusherRegistered (v : bool) (s : State) : State :=
  {| executingQueue := executingQueue s; configCollectorUrl := configCollectorUrl s; outQueue := outQueue s;
     idServiceCalled := idServiceCalled s; useLocalStorage := useLocalStorage s; anonymousTracking := anonymousTracking s;
     bufferSize := bufferSize s; bufferFlusherRegistered := v; storageSlot := storageSlot s;
     storageWritable := storageWritable s; beaconAccepts := beaconAccepts s; inflight := inflight s;
     bypassInflight := bypassInflight s; shifted := shifted s; history := history s |}.
Definition set_storageSlot (v : option (list entry)) (s : State) : State :=
  {| executingQueue := executingQueue s; configCollectorUrl := configCollectorUrl s; outQueue := outQueue s;
     idServiceCalled := idServiceCalled s; useLocalStorage := useLocalStorage s; anonymousTracking := anonymousTracking s;
     bufferSize := bufferSize s; bufferFlusherRegistered := bufferFlusherRegistered s; storageSlot := v;
     storageWritable := storageWritable s; beaconAccepts := beaconAccepts s; inflight := inflight s;
     bypassInflight := bypassInflight s; shifted := shifted s; history := history s |}.
Definition set_storageWritable (v : bool) (s : State) : State :=
  {| executingQueue := executingQueue s; configCollectorUrl := configCollectorUrl s; outQueue := outQueue s;
     idServiceCalled := idServiceCalled s; useLocalStorage := useLocalStorage s; anonymousTracking := anonymousTracking s;
     bufferSize := bufferSize s; bufferFlusherRegistered := bufferFlusherRegistered s; storageSlot := storageSlot s;
     storageWritable := v; beaconAccepts := beaconAccepts s; inflight := inflight s;
     bypassInflight := bypassInflight s; shifted := shifted s; history := history s |}.
Definition set_beaconAccepts (v : bool) (s : State) : State :=
  {| executingQueue := executingQueue s; configCollectorUrl := configCollectorUrl s; outQueue := outQueue s;
     idServiceCalled := idServiceCalled s; useLocalStorage := useLocalStorage s; anonymousTracking := anonymousTracking s;
     bufferSize := bufferSize s; bufferFlusherRegistered := bufferFlusherRegistered s; storageSlot := storageSlot s;
     storageWritable := storageWritable s; beaconAccepts := v; inflight := inflight s;
     bypassInflight := bypassInflight s; shifted := shifted s; history := history s |}.
Definition set_inflight (v : option Inflight) (s : State) : State :=
  {| executingQueue := executingQueue s; configCollectorUrl := configCollectorUrl s; outQueue := outQueue s;
     idServiceCalled := idServiceCalled s; useLocalStorage := useLocalStorage s; anonymousTracking := anonymousTracking s;
     bufferSize := bufferSize s; bufferFlusherRegistered := bufferFlusherRegistered s; storageSlot := storageSlot s;
     storageWritable := storageWritable s; beaconAccepts := beaconAccepts s; inflight := v;
     bypassInflight := bypassInflight s; shifted := shifted s; history := history s |}.
Definition set_bypassInflight (v : list entry) (s : State) : State :=
  {| executingQueue := executingQueue s; configCollectorUrl := configCollectorUrl s; outQueue := outQueue s;
     idServiceCalled := idServiceCalled s; useLocalStorage := useLocalStorage s; anonymousTracking := anonymousTracking s;
     bufferSize := bufferSize s; bufferFlusherRegistered := bufferFlusherRegistered s; storageSlot := storageSlot s;
     storageWritable := storageWritable s; beaconAccepts := beaconAccepts s; inflight := inflight s;
     bypassInflight := v; shifted := shifted s; history := history s |}.
Definition set_shifted (v : nat) (s : State) : State :=
  {| executingQueue := executingQueue s; configCollectorUrl := configCollectorUrl s; outQueue := outQueue s;
     idServiceCalled := idServiceCalled s; useLocalStorage := useLocalStorage s; anonymousTracking := anonymousTracking s;
     bufferSize := bufferSize s; bufferFlusherRegistered := bufferFlusherRegistered s; storageSlot := storageSlot s;
     storageWritable := storageWritable s; beaconAccepts := beaconAccepts s; inflight := inflight s;
     bypassInflight := bypassInflight s; shifted := v; history := history s |}.
Definition set_history (v : list entry) (s : State) : State :=
  {| executingQueue := executingQueue s; configCollectorUrl := configCollectorUrl s; outQueue := outQueue s;
     idServiceCalled := idServiceCalled s; useLocalStorage := useLocalStorage s; anonymousTracking := anonymousTracking s;
     bufferSize := bufferSize s; bufferFlusherRegistered := bufferFlusherRegistered s; storageSlot := storageSlot s;
     storageWritable := storageWritable s; beaconAccepts := beaconAccepts s; inflight := inflight s;
     bypassInflight := bypassInflight s; shifted := shifted s; history := v |}.

(** Queue mutations, with the ghost fields kept in step.
    [outQueue.push(v)]: *)
Definition push_queue (v : entry) (s : State) : State :=
  set_history (history s ++ [v])%list (set_outQueue (outQueue s ++ [v])%list s).

(** [n] times [outQueue.shift()]; [shift] on an empty array does nothing. *)
Definition shift_queue (n : nat) (s : State) : State :=
  set_shifted (shifted s + Nat.min n (length (outQueue s)))
    (set_outQueue (skipn n (outQueue s)) s).

(** The failsafe loop of [executeQueue]:
    [while (outQueue.length && typeof outQueue[0] !== 'string'
            && typeof outQueue[0] !== 'object') outQueue.shift();] *)
Fixpoint failsafe (q : list entry) : list entry :=
  match q with
  | [] => []
  | v :: q' =>
      if String.eqb (typeof v) "string" || String.eqb (typeof v) "object" then q
      else failsafe q'
  end.

Definition failsafe_queue (s : State) : State :=
  shift_queue (length (outQueue s) - length (failsafe (outQueue s))) s.

(** ** Observable effects *)

(** Requests; [records] are the queued entries a POST or beacon batch
    is built from ([x.evt] of each, with [stm] attached). *)
Inductive request : Type :=
  | PostRequest (url : string) (records : list entry)
  | BeaconRequest (url : string) (records : list entry)
  | GetRequest (url : string)
  | ImageRequest (url : string).

(** In [OnSuccess] and [OnFailure], [events] are the entries the
    callback's [EventBatch] is built from. *)
Inductive effect : Type :=
  (** a request carrying queued records; [from] and [count] are ghost:
      the positions [from .. from+count-1] in [history] of those records *)
  | Send (req : request) (from count : nat)
  | SendWithoutQueueing (url : string) (evt : Record_)
  | SendIdService (url : string)
  | Abort
  | Warn (bytes maxBytes : Z)
  | LogError (status : Z)
  | OnSuccess (events : list entry)
  | OnFailure (status : Z) (message : string) (events : list entry) (willRetry : bool).

(** ** A state, exception and output monad

    A thrown exception keeps the state and output reached so far, as a
    JavaScript throw does with the mutations already made. *)
Definition M (A : Type) : Type := State -> result A * State * list effect.

Definition ret {A} (a : A) : M A := fun s => (Ok a, s, []).

Definition bind {A B} (m : M A) (k : A -> M B) : M B := fun s =>
  match m s with
  | (Ok a, s1, e1) => let '(r, s2, e2) := k a s1 in (r, s2, (e1 ++ e2)%list)
  | (Throw x, s1, e1) => (Throw x, s1, e1)
  end.

Notation "x <- m ;; k" := (bind m (fun x => k))
  (at level 61, m at next level, right associativity).
Notation "m ;; k" := (bind m (fun _ => k)) (at level 61, right associativity).

Definition gets {A} (f : State -> A) : M A := fun s => (Ok (f s), s, []).
Definition modify (f : State -> State) : M unit := fun s => (Ok tt, f s, []).
Definition emit (e : effect) : M unit := fun s => (Ok tt, s, [e]).
Definition throw {A} (x : exn) : M A := fun s => (Throw x, s, []).
Definition lift {A} (r : result A) : M A := fun s => (r, s, []).

(** ** The manager *)

Section Manager.
Variable cfg : Config.
Variable env : JsEnv.

(** Modelled from the spec: [attemptWriteLocalStorage] (in helpers, not
    in src/) tries to store the value and returns whether it succeeded;
    a failed write is swallowed. *)
Definition attemptWriteLocalStorage (value : list entry) : M bool := fun s =>
  if storageWritable s then (Ok true, set_storageSlot (Some value) s, [])
  else (Ok false, s, []).

(** [if (useLocalStorage) attemptWriteLocalStorage(queueName,
      JSON.stringify(outQueue.slice(0, maxLocalStorageQueueSize)))] *)
Definition persistQueue : M bool :=
  ul <- gets useLocalStorage ;;
  if ul then
    q <- gets outQueue ;;
    attemptWriteLocalStorage (firstn (maxLocalStorageQueueSize cfg) q)
  else ret false.

Definition removeEventsFromQueue (numberToSend : nat) : M unit :=
  modify (shift_queue numberToSend) ;;
  persistQueue ;;
  ret tt.

(** [createGetUrl(nextRequest)], with [configCollectorUrl] passed in;
    [new Date().getTime()] reads [dateNow env]. *)
Definition createGetUrl (collectorUrl nextRequest : string) : string :=
  if useStm cfg then
    collectorUrl ++ replace_first_qmark ("?stm=" ++ dateNow env ++ "&") nextRequest
  else collectorUrl ++ nextRequest.

(** [createGetUrl(outQueue[0])] on the head entry. Only strings and
    objects without ['evt'] reach it; on an object [nextRequest.replace]
    is not a function, and [+] converts the object to a string. *)
Definition createGetUrl_entry (collectorUrl : string) (v : entry) : result string :=
  match v with
  | QStr s => Ok (createGetUrl collectorUrl s)
  | JObj _ str => if useStm cfg then Throw TypeError else Ok (collectorUrl ++ str)
  | _ => Throw TypeError
  end.

(** [setXhrCallbacks(xhr, numberToSend, batch)] arms the readystatechange
    handler and the timeout; both are handled in [xhrReadyStateDone] and
    [xhrTimeout] below. [sync] is how [xhr] was opened. *)
Definition setXhrCallbacks (sync : bool) (numberToSend : nat) (batch : list entry) : M unit :=
  modify (set_inflight (Some (XhrReq sync numberToSend batch))).

(** [idService && !idServiceCalled]: the identity service still to call
    ([''] is falsy). *)
Definition pendingIdService (called : bool) : option string :=
  match idService cfg with
  | Some ids => if negb (String.eqb ids "") && negb called then Some ids else None
  | None => None
  end.

(** The body of the drain [executeQueue(sync)]. [fuel] bounds the
    synchronous recursion through an accepted beacon; each round removes
    at least one entry, so [S (length outQueue)] rounds are enough (see
    [executeQueue]). The recursive call is [executeQueue()], with [sync]
    false.

    [sync] opens the requests synchronously ([xhr.open(..., !sync)]).
    For the identity service, [xhr.timeout = connectionTimeout] then
    throws an [InvalidAccessError] (a document may not set a timeout on
    a synchronous request), after [idServiceCalled] was set. A
    synchronous [xhr.send()] of the drain runs the readystatechange
    handler before it returns, or throws on a network error; nothing
    follows [send()] in the drain, so the outcome is left to the events
    [EvXhrDone] and [EvXhrTimeout], as for an asynchronous request. *)
Fixpoint executeQueue_fuel (sync : bool) (fuel : nat) : M unit :=
  match fuel with
  | O => ret tt
  | S fuel' =>
    modify failsafe_queue ;;
    q <- gets outQueue ;;
    match q with
    | [] => modify (set_executingQueue false)
    | head :: _ =>
      url <- gets configCollectorUrl ;;
      match url with
      | None => throw NoCollectorConfigured
      | Some curl =>
        modify (set_executingQueue true) ;;
        called <- gets idServiceCalled ;;
        match pendingIdService called with
        | Some ids =>
            (* initializeXMLHttpRequest(idService, false, sync) *)
            if negb (hasXMLHttpRequest cfg) then throw ReferenceError else
            modify (set_idServiceCalled true) ;;
            (* xhr.timeout = connectionTimeout *)
            if sync then throw InvalidAccessError else
            modify (set_inflight (Some IdServiceReq)) ;;
            emit (SendIdService ids)
        | None =>
        sh <- gets shifted ;;
        if useXhr cfg then
          p <- lift (postable q) ;;
          if p then
            numberToSend <- lift (chooseHowManyToSend (maxPostBytes cfg) q) ;;
            let batch := firstn numberToSend q in
            match batch with
            | [] => ret tt
            | _ :: _ =>
              (if useBeacon cfg then emit (Send (BeaconRequest curl batch) sh numberToSend)
               else ret tt) ;;
              acc <- gets beaconAccepts ;;
              if useBeacon cfg && acc then
                removeEventsFromQueue numberToSend ;;
                emit (OnSuccess batch) ;;
                executeQueue_fuel false fuel'
              else
                setXhrCallbacks sync numberToSend batch ;;
                emit (Send (PostRequest curl batch) sh numberToSend)
            end
          else
            u <- lift (createGetUrl_entry curl head) ;;
            setXhrCallbacks sync 1 [QStr u] ;;       (* the batch is [url] *)
            emit (Send (GetRequest u) sh 1)
        else
          anon <- gets anonymousTracking ;;
          p <- (if anon then ret true else lift (postable q)) ;;
          if anon || p then modify (set_executingQueue false)
          else
            u <- lift (createGetUrl_entry curl head) ;;
            modify (set_inflight (Some ImageReq)) ;;
            emit (Send (ImageRequest u) sh 1)
        end
      end
    end
  end.

(** [executeQueue(sync)] *)
Definition executeQueue_sync (sync : bool) : M unit := fun s =>
  executeQueue_fuel sync (S (length (outQueue s))) s.

(** [executeQueue()] *)
Definition executeQueue : M unit := fun s =>
  executeQueue_fuel false (S (length (outQueue s))) s.

(** The failure branch of the readystatechange handler of
    [setXhrCallbacks], on [xhr.status] and [xhr.statusText]. *)
Definition xhrFailed (numberToSend : nat) (batch : list entry) (status : Z)
    (statusText : string) : M unit :=
  let willRetry := shouldRetryForStatusCode (retryFailedRequests cfg)
                     (retryStatusCodes cfg) (dontRetryStatusCodes cfg) status in
  (if negb willRetry then
     emit (LogError status) ;; removeEventsFromQueue numberToSend
   else ret tt) ;;
  emit (OnFailure status statusText batch willRetry) ;;
  modify (set_executingQueue false).

(** The [onreadystatechange] handler at [readyState === 4]. For the
    drain's request this is the handler of [setXhrCallbacks]; for the
    identity-service request it just resumes the drain. *)
Definition xhrReadyStateDone (status : Z) (statusText : string) : M unit :=
  fl <- gets inflight ;;
  match fl with
  | Some (XhrReq _ numberToSend batch) =>
      modify (set_inflight None) ;;                 (* clearTimeout(xhrTimeout) *)
      if isSuccessfulRequest status then
        removeEventsFromQueue numberToSend ;;
        emit (OnSuccess batch) ;;
        executeQueue
      else xhrFailed numberToSend batch status statusText
  | Some IdServiceReq =>
      modify (set_inflight None) ;;
      executeQueue
  | _ => ret tt
  end.

(** The [setTimeout] callback armed by [setXhrCallbacks], run when the
    handler has not run within [connectionTimeout] (it would have
    cleared the timer). On an asynchronous request, still active then,
    [xhr.abort()] runs the request error steps: the state becomes DONE
    and [readystatechange] fires synchronously, so the handler of
    [setXhrCallbacks] runs inside [abort()] with [xhr.status] 0 and
    [xhr.statusText] ['']; its [clearTimeout] finds the timer already
    fired. On a synchronous request the timer only fires after [send()]
    threw a network error: the request is DONE already and [abort()]
    fires nothing. *)
Definition xhrTimeout : M unit :=
  fl <- gets inflight ;;
  match fl with
  | Some (XhrReq sync numberToSend batch) =>
      modify (set_inflight None) ;;
      emit Abort ;;                                  (* xhr.abort() *)
      (if sync then ret tt else xhrFailed numberToSend batch 0 "") ;;
      (if negb (retryFailedRequests cfg) then removeEventsFromQueue numberToSend
       else ret tt) ;;
      emit (OnFailure 0 "timeout" batch (retryFailedRequests cfg)) ;;
      modify (set_executingQueue false)
  | _ => ret tt
  end.

(** [image.onload] while [loading]. *)
Definition imageOnload : M unit :=
  fl <- gets inflight ;;
  match fl with
  | Some ImageReq =>
      modify (set_inflight None) ;;                 (* loading = false *)
      modify (shift_queue 1) ;;                     (* outQueue.shift() *)
      persistQueue ;;
      executeQueue
  | _ => ret tt
  end.

(** [image.onerror] while [loading]. *)
Definition imageOnerror : M unit :=
  fl <- gets inflight ;;
  match fl with
  | Some ImageReq =>
      modify (set_inflight None) ;;
      modify (set_executingQueue false)
  | _ => ret tt
  end.

(** The image's [setTimeout] callback: [if (loading && executingQueue)]. *)
Definition imageTimeout : M unit :=
  fl <- gets inflight ;;
  ex <- gets executingQueue ;;
  match fl with
  | Some ImageReq =>
      if ex then modify (set_inflight None) ;; executeQueue else ret tt
  | _ => ret tt
  end.

(** [sendPostRequestWithoutQueueing(body, url)]: a request of its own,
    outside [outQueue]; its outcome arrives in [bypassReadyStateDone]. *)
Definition sendPostRequestWithoutQueueing (body : Record_ * Z) (url : string) : M unit :=
  bs <- gets bypassInflight ;;
  modify (set_bypassInflight (bs ++ [PostEvent (fst body) (snd body)])%list) ;;
  emit (SendWithoutQueueing url (fst body)).

(** The [onreadystatechange] handler of the [i]-th bypass request. *)
Definition bypassReadyStateDone (i : nat) (status : Z) (statusText : string) : M unit :=
  bs <- gets bypassInflight ;;
  match nth_error bs i with
  | Some body =>
      modify (set_bypassInflight (firstn i bs ++ skipn (S i) bs)%list) ;;
      if isSuccessfulRequest status then emit (OnSuccess [body])
      else emit (OnFailure status statusText [body] false)
  | None => ret tt
  end.

Definition eventTooBigWarning (bytes maxBytes : Z) : M unit := emit (Warn bytes maxBytes).

(** [enqueueRequest(request, url)]; the inner [M bool] says whether the
    event left through the bypass ([return]). *)
Definition enqueueRequest (request : Payload) (url : string) : M unit :=
  let collectorUrl := (url ++ path cfg)%string in
  modify (set_configCollectorUrl (Some collectorUrl)) ;;
  returned <-
    (if usePost cfg then
       let body := getBody env request in
       if (maxPostBytes cfg <=? snd body)%Z then
         eventTooBigWarning (snd body) (maxPostBytes cfg) ;;
         sendPostRequestWithoutQueueing body collectorUrl ;;
         ret true
       else
         modify (push_queue (PostEvent (fst body) (snd body))) ;;
         ret false
     else
       let querystring := getQuerystring env request in
       let bytes := getUTF8Length env (createGetUrl collectorUrl querystring) in
       if (0 <? maxGetBytes cfg)%Z && (maxGetBytes cfg <=? bytes)%Z then
         eventTooBigWarning bytes (maxGetBytes cfg) ;;
         (if useXhr cfg then
            sendPostRequestWithoutQueueing (getBody env request) (url ++ postPath cfg)%string
          else ret tt) ;;
         ret true
       else
         modify (push_queue (QStr querystring)) ;;
         ret false) ;;
  if returned then ret tt
  else
    savedToLocalStorage <- persistQueue ;;
    ex <- gets executingQueue ;;
    q <- gets outQueue ;;
    bsz <- gets bufferSize ;;
    if negb ex && (negb savedToLocalStorage || (bsz <=? Z.of_nat (length q))%Z)
    then executeQueue else ret tt.

(** The public [executeQueue] of the returned object. *)
Definition executeQueue_public : M unit :=
  ex <- gets executingQueue ;;
  if ex then ret tt else executeQueue.

(** The function pushed on [sharedSate.bufferFlushers] when
    [useXhr && bufferSize > 1], called with [sync]. *)
Definition bufferFlusher (sync : bool) : M unit :=
  reg <- gets bufferFlusherRegistered ;;
  ex <- gets executingQueue ;;
  if reg && negb ex then executeQueue_sync sync else ret tt.

End Manager.

(** ** Runs: calls from the tracker and browser events *)

Inductive event : Type :=
  | EvEnqueueRequest (request : Payload) (url : string)
  | EvExecuteQueue
  | EvBufferFlush (sync : bool)
  | EvSetUseLocalStorage (b : bool)
  | EvSetAnonymousTracking (b : bool)
  | EvSetCollectorUrl (url : string)
  | EvSetBufferSize (n : Z)
  | EvXhrDone (status : Z) (statusText : string)
  | EvXhrTimeout
  | EvImageLoad
  | EvImageError
  | EvImageTimeout
  | EvBypassDone (i : nat) (status : Z) (statusText : string)
  (** the browser's storage and beacon behaviour changes *)
  | EvStorageWritable (b : bool)
  | EvBeaconAccepts (b : bool).

Definition handle (cfg : Config) (env : JsEnv) (ev : event) : M unit :=
  match ev with
  | EvEnqueueRequest request url => enqueueRequest cfg env request url
  | EvExecuteQueue => executeQueue_public cfg env
  | EvBufferFlush sync => bufferFlusher cfg env sync
  | EvSetUseLocalStorage b => modify (set_useLocalStorage b)
  | EvSetAnonymousTracking b => modify (set_anonymousTracking b)
  | EvSetCollectorUrl url => modify (set_configCollectorUrl (Some (url ++ path cfg)))
  | EvSetBufferSize n => modify (set_bufferSize n)
  | EvXhrDone status text => xhrReadyStateDone cfg env status text
  | EvXhrTimeout => xhrTimeout cfg
  | EvImageLoad => imageOnload cfg env
  | EvImageError => imageOnerror
  | EvImageTimeout => imageTimeout cfg env
  | EvBypassDone i status text => bypassReadyStateDone i status text
  | EvStorageWritable b => modify (set_storageWritable b)
  | EvBeaconAccepts b => modify (set_beaconAccepts b)
  end.

(** An exception thrown by a handler ends that handler only; the state
    and output it reached remain. *)
Fixpoint run (cfg : Config) (env : JsEnv) (evs : list event) (s : State)
    : State * list effect :=
  match evs with
  | [] => (s, [])
  | ev :: evs' =>
      let '(_, s1, e1) := handle cfg env ev s in
      let '(s2, e2) := run cfg env evs' s1 in
      (s2, e1 ++ e2)%list
  end.

(** ** Construction *)

(** Loading the persisted queue:
    [try { const localStorageQueue = window.localStorage.getItem(queueName);
           outQueue = localStorageQueue ? JSON.parse(localStorageQueue) : []; }
     catch (e) {}
     if (!Array.isArray(outQueue)) outQueue = [];]
    [getItem] is what reading the slot gives: [null] ([None]), a
    string, or a thrown [SecurityError]. *)
Definition loadOutQueue (env : JsEnv) (useLocalStorage : bool)
    (getItem : result (option string)) : list entry :=
  let outQueue :=
    if useLocalStorage then
      match getItem with
      | Throw _ => PArray []
      | Ok None | Ok (Some EmptyString) => PArray []
      | Ok (Some stored) =>
          match JSON_parse env stored with
          | Ok v => v
          | Throw _ => PArray []
          end
      end
    else PArray [] in
  match outQueue with
  | PArray items => items
  | PNotArray => []
  end.

(** The state right after [OutQueueManager(...)] returns, for the
    resolved configuration [cfg]. [localStorageAccessible] is the result
    of the detector of that name. *)
Definition OutQueueManager_init (cfg : Config) (env : JsEnv)
    (useLocalStorage0 localStorageAccessible : bool) (bufferSize0 : Z)
    (anonymousTracking0 : bool) (getItem : result (option string))
    (storageWritable0 beaconAccepts0 : bool) : State :=
  let q := loadOutQueue env useLocalStorage0 getItem in
  (* (useLocalStorage && localStorageAccessible() && usePost && bufferSize) || 1 *)
  let bsz := if useLocalStorage0 && localStorageAccessible && usePost cfg
                && negb (bufferSize0 =? 0)%Z
             then bufferSize0 else 1%Z in
  {| executingQueue := false; configCollectorUrl := None; outQueue := q;
     idServiceCalled := false; useLocalStorage := useLocalStorage0;
     anonymousTracking := anonymousTracking0;
     bufferSize := bsz; bufferFlusherRegistered := useXhr cfg && (1 <? bsz)%Z;
     storageSlot := None;
     storageWritable := storageWritable0; beaconAccepts := beaconAccepts0;
     inflight := None; bypassInflight := [];
     shifted := 0; history := q |}.

(** * Definitions for the properties *)

(** A queue of post-records [(evt, bytes)]. *)
Definition post_queue (recs : list (Record_ * Z)) : list entry :=
  map (fun r => PostEvent (fst r) (snd r)) recs.

Fixpoint bytes_sum (recs : list (Record_ * Z)) : Z :=
  match recs with
  | [] => 0
  | r :: recs' => snd r + bytes_sum recs'
  end%Z.

Definition sample_recs : list (Record_ * Z) := [([], 3%Z); ([], 4%Z); ([], 5%Z)].

(** ** Sample configuration and browser, for concrete runs *)

Definition sample_cfg : Config :=
  {| usePost := true; useXhr := true; useBeacon := false; useStm := false;
     postPath := "/com.snowplowanalytics.snowplow/tp2";
     maxPostBytes := 40000; maxGetBytes := 0; maxLocalStorageQueueSize := 1000;
     retryStatusCodes := []; dontRetryStatusCodes := [400; 401; 403; 410; 422]%Z;
     retryFailedRequests := true; idService := None;
     hasXMLHttpRequest := true |}.

Definition sample_env : JsEnv :=
  {| JSON_parse := fun _ => Throw SyntaxError;
     toString := fun v => match v with
                          | PVStr s => s
                          | PVNum _ => "1"
                          | PVBool b => if b then "true" else "false"
                          end;
     JSON_stringify := fun r => String.concat "," (map (fun kv => fst kv ++ ":" ++ snd kv) r);
     encodeURIComponent := fun s => s;
     charCodes := fun s => map (fun c => Z.of_nat (nat_of_ascii c)) (list_ascii_of_string s);
     dateNow := "1700000000000" |}.

(** A manager right after construction, with the given queue and collector. *)
Definition sample_state (q : list entry) (url : option string) : State :=
  {| executingQueue := false; configCollectorUrl := url; outQueue := q;
     idServiceCalled := false; useLocalStorage := true; anonymousTracking := false;
     bufferSize := 1; bufferFlusherRegistered := false; storageSlot := None;
     storageWritable := true; beaconAccepts := false; inflight := None;
     bypassInflight := []; shifted := 0; history := q |}.

Definition sample_evt : Record_ := [("e", "pv"); ("url", "http://example.com")].

Definition c4_cfg : Config :=
  {| usePost := true; useXhr := true; useBeacon := false; useStm := false;
     postPath := "/com.snowplowanalytics.snowplow/tp2";
     maxPostBytes := 40000; maxGetBytes := 0; maxLocalStorageQueueSize := 1000;
     retryStatusCodes := []; dontRetryStatusCodes := [0%Z];
     retryFailedRequests := true; idService := None;
     hasXMLHttpRequest := true |}.

Definition c4_state : State :=
  set_inflight (Some (XhrReq false 1 [PostEvent sample_evt 40]))
    (set_executingQueue true
       (sample_state [PostEvent sample_evt 40] (Some "http://c/tp2"))).

(** GET mode on a browser without CORS XMLHttpRequest. *)
Definition c3_cfg : Config :=
  {| usePost := false; useXhr := false; useBeacon := false; useStm := false;
     postPath := "/com.snowplowanalytics.snowplow/tp2";
     maxPostBytes := 40000; maxGetBytes := 20; maxLocalStorageQueueSize := 1000;
     retryStatusCodes := []; dontRetryStatusCodes := [400; 401; 403; 410; 422]%Z;
     retryFailedRequests := true; idService := None;
     hasXMLHttpRequest := true |}.

Definition c3_request : Payload :=
  [("e", PVStr "pv"); ("url", PVStr "http://example.com/a/long/page")].

(** POST without retries, for the timeout of C7. *)
Definition c7_cfg : Config :=
  {| usePost := true; useXhr := true; useBeacon := false; useStm := false;
     postPath := "/com.snowplowanalytics.snowplow/tp2";
     maxPostBytes := 40000; maxGetBytes := 0; maxLocalStorageQueueSize := 1000;
     retryStatusCodes := []; dontRetryStatusCodes := [400; 401; 403; 410; 422]%Z;
     retryFailedRequests := false; idService := None;
     hasXMLHttpRequest := true |}.

Definition c7_request1 : Payload := [("e", PVStr "pv"); ("url", PVStr "http://example.com/1")].
Definition c7_request2 : Payload := [("e", PVStr "pv"); ("url", PVStr "http://example.com/2")].

(** The post-records the two requests are queued as. *)
Definition c7_record (request : Payload) : entry :=
  PostEvent (fst (getBody sample_env request)) (snd (getBody sample_env request)).

(** A fresh manager with persistence on and an empty slot: the first
    event starts a drain, the second is queued behind it while the first
    batch is in flight, then the request times out. *)
Definition c7_init : State :=
  OutQueueManager_init c7_cfg sample_env true true 1 false (Ok None) true false.

Definition c7_events : list event :=
  [EvEnqueueRequest c7_request1 "http://c"; EvEnqueueRequest c7_request2 "http://c";
   EvXhrTimeout].

(** POST with an identity service, and a manager whose buffer flusher is
    registered. *)
Definition ids_cfg : Config :=
  {| usePost := true; useXhr := true; useBeacon := false; useStm := false;
     postPath := "/com.snowplowanalytics.snowplow/tp2";
     maxPostBytes := 40000; maxGetBytes := 0; maxLocalStorageQueueSize := 1000;
     retryStatusCodes := []; dontRetryStatusCodes := [400; 401; 403; 410; 422]%Z;
     retryFailedRequests := true; idService := Some "http://c/id";
     hasXMLHttpRequest := true |}.

Definition ids_state : State :=
  set_bufferFlusherRegistered true
    (sample_state [PostEvent sample_evt 40] (Some "http://c/tp2")).

(** Invariant of the states a run reaches: the queue is what remains of
    [history] after the entries shifted off its front, and a drain's
    request only exists while the drain is marked active. *)
Definition Inv (s : State) : Prop :=
  shifted s <= length (history s) /\
  outQueue s = skipn (shifted s) (history s) /\
  (forall sync n batch, inflight s = Some (XhrReq sync n batch) -> executingQueue s = true) /\
  (inflight s = Some ImageReq -> executingQueue s = true) /\
  (inflight s = Some IdServiceReq -> executingQueue s = true).

(** Positions [from] of the queued-record requests in an output. *)
Fixpoint send_froms (effs : list effect) : list nat :=
  match effs with
  | [] => []
  | Send _ from _ :: effs' => from :: send_froms effs'
  | _ :: effs' => send_froms effs'
  end.

(** The positions never decrease, starting from [lo]. *)
Fixpoint mono_from (lo : nat) (l : list nat) : Prop :=
  match l with
  | [] => True
  | x :: l' => lo <= x /\ mono_from x l'
  end.

(** A request carries the records at positions [from .. from+count-1]
    of the history [h]: a POST or beacon batch is exactly that segment, a
    GET or pixel request is the URL of the record at [from]. *)
Definition send_ok (cfg : Config) (env : JsEnv) (h : list entry) (e : effect) : Prop :=
  match e with
  | Send (PostRequest _ records) from count
  | Send (BeaconRequest _ records) from count =>
      records = firstn count (skipn from h) /\ count = length records /\ 1 <= count
  | Send (GetRequest u) from count
  | Send (ImageRequest u) from count =>
      count = 1 /\ exists v curl, nth_error h from = Some v /\
                                  createGetUrl_entry cfg env curl v = Ok u
  | _ => True
  end.

(** What one handler does to the ghost view of the queue. *)
Definition Post (cfg : Config) (env : JsEnv) (s : State)
    (o : result unit * State * list effect) : Prop :=
  let '(_, s', effs) := o in
  Inv s' /\ shifted s <= shifted s' /\
  (exists ext, history s' = (history s ++ ext)%list) /\
  mono_from (shifted s) (send_froms effs) /\
  Forall (fun x => x <= shifted s') (send_froms effs) /\
  Forall (send_ok cfg env (history s')) effs.

(** [Post], for an outcome already split into its final state [s'] and
    its output [effs]. *)
Definition Rel (cfg : Config) (env : JsEnv) (s s' : State) (effs : list effect) : Prop :=
  Inv s' /\ shifted s <= shifted s' /\
  (exists ext, history s' = (history s ++ ext)%list) /\
  mono_from (shifted s) (send_froms effs) /\
  Forall (fun x => x <= shifted s') (send_froms effs) /\
  Forall (send_ok cfg env (history s')) effs.

(** [e] is a request carrying the record at position [p] of the history. *)
Definition covers (e : effect) (p : nat) : Prop :=
  match e with
  | Send _ from count => from <= p < from + count
  | _ => False
  end.

(** * The rest of [OutQueueManager] *)

(** [queueName = `snowplowOutQueue_${id}_${usePost ? 'post2' : 'get'}`] *)
Definition queueName (id : string) (usePost : bool) : string :=
  "snowplowOutQueue_" ++ id ++ "_" ++ (if usePost then "post2" else "get").

(** ** [attachStmToEvent]

    [events[i]['stm'] = stm] on a flat record: an existing [stm] key keeps
    its place and takes the new value, a missing one is added last. *)
Fixpoint set_field (k v : string) (r : Record_) : Record_ :=
  match r with
  | [] => [(k, v)]
  | (k', v') :: r' => if String.eqb k k' then (k', v) :: r' else (k', v') :: set_field k v r'
  end.

Definition attachStmToEvent (stm : string) (events : list Record_) : list Record_ :=
  map (set_field "stm" stm) events.

Fixpoint field_count (k : string) (r : Record_) : nat :=
  match r with
  | [] => 0
  | (k', _) :: r' => (if String.eqb k k' then 1 else 0) + field_count k r'
  end.

(** ** [hasWebKitBeaconBug] *)

(** [parseInt(s)] with no radix, on Latin-1 code units: leading white
    space, an optional sign, a [0x] prefix for radix 16, then the longest
    run of digits of the radix; [None] is NaN. *)
Definition js_is_space (c : ascii) : bool :=
  let n := nat_of_ascii c in
  (((9 <=? n) && (n <=? 13)) || (n =? 32) || (n =? 160))%nat.

Fixpoint trimStart (s : string) : string :=
  match s with
  | String c s' => if js_is_space c then trimStart s' else s
  | EmptyString => EmptyString
  end.

Definition digit_value (c : ascii) : option Z :=
  let n := nat_of_ascii c in
  if ((48 <=? n) && (n <=? 57))%nat then Some (Z.of_nat n - 48)%Z
  else if ((97 <=? n) && (n <=? 122))%nat then Some (Z.of_nat n - 87)%Z
  else if ((65 <=? n) && (n <=? 90))%nat then Some (Z.of_nat n - 55)%Z
  else None.

Fixpoint parse_digits (radix : Z) (s : string) (acc : option Z) : option Z :=
  match s with
  | String c s' =>
      match digit_value c with
      | Some d =>
          if (d <? radix)%Z
          then parse_digits radix s' (Some (match acc with Some a => a | None => 0 end * radix + d)%Z)
          else acc
      | None => acc
      end
  | EmptyString => acc
  end.

Definition parseInt (s0 : string) : option Z :=
  let s := trimStart s0 in
  let '(sign, s1) :=
    match s with
    | String "-" r => ((-1)%Z, r)
    | String "+" r => (1%Z, r)
    | _ => (1%Z, s)
    end in
  let '(radix, s2) :=
    match s1 with
    | String "0" (String x r) =>
        if Ascii.eqb x "x" || Ascii.eqb x "X" then (16%Z, r) else (10%Z, s1)
    | _ => (10%Z, s1)
    end in
  option_map (Z.mul sign) (parse_digits radix s2 None).

(** [a <= b] and [a === b] with [a] possibly NaN *)
Definition js_le (a : option Z) (b : Z) : bool :=
  match a with Some x => (x <=? b)%Z | None => false end.
Definition js_eq (a : option Z) (b : Z) : bool :=
  match a with Some x => (x =? b)%Z | None => false end.

(** [String(match[i])]: a group that did not take part is [undefined]. *)
Definition match_at (m : list (option string)) (i : nat) : string :=
  match nth_error m i with
  | Some (Some x) => x
  | _ => "undefined"
  end.

Definition ios_pattern : string := "(iP.+; CPU .*OS (d+)[_d]*.*) AppleWebKit/".
Definition macosx_pattern : string := "(Macintosh;.*Mac OS X (d+)_(d+)[_d]*.*) AppleWebKit/".
Definition safari_pattern : string := "Version/.* Safari/".
Definition chromium_pattern : string := "Chrom(e|ium)".

Section WebKit.
(** [useragent.match(pattern)]: [null] or the array of the whole match
    and its groups. *)
Variable uaMatch : string -> option (list (option string)).

Definition isIosVersionLessThanOrEqualTo (major : Z) : bool :=
  match uaMatch ios_pattern with
  | Some ((_ :: _) as m) => js_le (parseInt (match_at m 0)) major
  | _ => false
  end.

Definition isMacosxVersionLessThanOrEqualTo (major minor : Z) : bool :=
  match uaMatch macosx_pattern with
  | Some ((_ :: _) as m) =>
      js_le (parseInt (match_at m 0)) major
      || (js_eq (parseInt (match_at m 0)) major && js_le (parseInt (match_at m 1)) minor)
  | _ => false
  end.

(** Truthiness of [useragent.match(...) && !isChromiumBased(useragent)]. *)
Definition isSafari : bool :=
  match uaMatch safari_pattern, uaMatch chromium_pattern with
  | Some _, None => true
  | _, _ => false
  end.

Definition hasWebKitBeaconBug : bool :=
  isIosVersionLessThanOrEqualTo 13 || (isMacosxVersionLessThanOrEqualTo 10 15 && isSafari).

End WebKit.

(** What regular-expression matching guarantees about the two version
    patterns: the whole match and group 1 both start where the pattern's
    first group starts, with ["iP"] or ["Macintosh;"]. *)
Definition prefix_ok (pre : string) (m : list (option string)) : bool :=
  forallb (fun o => match o with Some x => String.prefix pre x | None => true end) (firstn 2 m).

Definition webkit_matches_ok (uaMatch : string -> option (list (option string))) : bool :=
  match uaMatch ios_pattern with Some m => prefix_ok "iP" m | None => true end &&
  match uaMatch macosx_pattern with Some m => prefix_ok "Macintosh;" m | None => true end.

(** ** UTF-16 and UTF-8, after the Unicode standard *)

(** Decoding well-formed UTF-16; a lone surrogate makes it ill-formed. *)
Fixpoint utf16_decode (cs : list Z) : option (list Z) :=
  match cs with
  | [] => Some []
  | c :: rest =>
      if (55296 <=? c)%Z && (c <=? 56319)%Z then
        match rest with
        | c2 :: rest' =>
            if (56320 <=? c2)%Z && (c2 <=? 57343)%Z then
              option_map (cons (65536 + (c - 55296) * 1024 + (c2 - 56320))%Z) (utf16_decode rest')
            else None
        | [] => None
        end
      else if (56320 <=? c)%Z && (c <=? 57343)%Z then None
      else option_map (cons c) (utf16_decode rest)
  end.

(** Number of bytes of the UTF-8 encoding of a code point. *)
Definition utf8_width (cp : Z) : Z :=
  if (cp <=? 127)%Z then 1 else if (cp <=? 2047)%Z then 2
  else if (cp <=? 65535)%Z then 3 else 4.

Definition utf8_size (cps : list Z) : Z := fold_right (fun cp n => utf8_width cp + n)%Z 0%Z cps.

(** ** Reading a querystring back *)

Fixpoint has_char (c : ascii) (s : string) : bool :=
  match s with
  | EmptyString => false
  | String c' s' => Ascii.eqb c c' || has_char c s'
  end.

(** [s.split(sep)] *)
Fixpoint split_on (sep : ascii) (s : string) : list string :=
  match s with
  | EmptyString => [EmptyString]
  | String c s' =>
      if Ascii.eqb c sep then EmptyString :: split_on sep s'
      else match split_on sep s' with
           | x :: xs => String c x :: xs
           | [] => [String c EmptyString]
           end
  end.

(** A [key=value] parameter, cut at its first ['=']. *)
Fixpoint parse_param (seg : string) : string * string :=
  match seg with
  | EmptyString => (EmptyString, EmptyString)
  | String c s' =>
      if Ascii.eqb c "=" then (EmptyString, s')
      else let '(k, v) := parse_param s' in (String c k, v)
  end.

Definition parseQuerystring (qs : string) : option (list (string * string)) :=
  match qs with
  | String "?" rest => Some (map parse_param (split_on "&" rest))
  | _ => None
  end.

(** The parameters [getQuerystring] is meant to carry: the encoded pairs
    other than [co] and [cx] in order, then [co] and [cx] when present. *)
Definition qs_params (env : JsEnv) (request : Payload) : list (string * string) :=
  (map (fun '(k, v) => (encodeURIComponent env k, encodeURIComponent env (toString env v)))
       (filter (fun '(k, _) => negb (lowPriorityKey k)) request)
   ++ flat_map (fun ck => match assoc ck request with
                          | Some v => [(ck, encodeURIComponent env (toString env v))]
                          | None => []
                          end) ["co"; "cx"])%list.

(** ** Definitions for the properties of the rest *)

(** A parameter [key=value], and parameters joined each behind a ['&']. *)
Definition kv (p : string * string) : string := fst p ++ "=" ++ snd p.

Fixpoint amp_join (l : list string) : string :=
  match l with
  | [] => ""
  | x :: l' => "&" ++ x ++ amp_join l'
  end.

(** The fields [getQuerystring] writes in its first loop, their encoded
    pairs, and the [co] and [cx] pairs it appends. *)
Definition nc (r : Payload) : Payload := filter (fun '(k, _) => negb (lowPriorityKey k)) r.

Definition encp (env : JsEnv) (p : string * pval) : string * string :=
  let '(k, v) := p in (encodeURIComponent env k, encodeURIComponent env (toString env v)).

Definition ctxp (env : JsEnv) (r : Payload) : list (string * string) :=
  flat_map (fun ck => match assoc ck r with
                      | Some v => [(ck, encodeURIComponent env (toString env v))]
                      | None => []
                      end) ["co"; "cx"].

(** A pair that reads back: no ['&'] in it, no ['='] in its key. *)
Definition good_pair (p : string * string) : Prop :=
  has_char "&" (kv p) = false /\ has_char "=" (fst p) = false.

(** [r[k]] on a flat record: the first field named [k]. *)
Fixpoint field_lookup (k : string) (r : Record_) : option string :=
  match r with
  | [] => None
  | (k', v) :: r' => if String.eqb k k' then Some v else field_lookup k r'
  end.

(** The effects that send something on the drain's behalf. *)
Definition drain_request (e : effect) : bool :=
  match e with
  | Send _ _ _ | SendIdService _ => true
  | _ => false
  end.

(** The records carried by the beacons of an output. *)
Definition beacon_records (effs : list effect) : list entry :=
  flat_map (fun e => match e with Send (BeaconRequest _ recs) _ _ => recs | _ => [] end) effs.

Definition beacon_or_success (e : effect) : bool :=
  match e with
  | Send (BeaconRequest _ _) _ _ | OnSuccess _ => true
  | _ => false
  end.

(** POST through the beacon. *)
Definition beacon_cfg : Config :=
  {| usePost := true; useXhr := true; useBeacon := true; useStm := false;
     postPath := "/com.snowplowanalytics.snowplow/tp2";
     maxPostBytes := 40000; maxGetBytes := 0; maxLocalStorageQueueSize := 1000;
     retryStatusCodes := []; dontRetryStatusCodes := [400; 401; 403; 410; 422]%Z;
     retryFailedRequests := true; idService := None;
     hasXMLHttpRequest := true |}.

(** [useragent.match] on ["Mozilla/5.0 (iPhone; CPU iPhone OS dd_d like
    Mac OS X AppleWebKit/605"], which the iOS pattern matches (its [d] is
    a literal letter) and the other patterns do not. *)
Definition sample_uaMatch (pattern : string) : option (list (option string)) :=
  if String.eqb pattern ios_pattern
  then Some [Some "iPhone; CPU iPhone OS dd_d like Mac OS X AppleWebKit/";
             Some "iPhone; CPU iPhone OS dd_d like Mac OS X"; Some "dd"]
  else None.

(** * Properties *)

(** ** Batch selection *)

Example choose_two_of_three :
  chooseHowManyToSend 10 (post_queue sample_recs) = Ok 2%nat.
Proof. reflexivity. Qed.

Example choose_none_when_head_reaches_cap :
  chooseHowManyToSend 10 (post_queue [([], 10%Z); ([], 1%Z)]) = Ok 0%nat.
Proof. reflexivity. Qed.

Lemma choose_loop_post : forall cap recs acc k,
  exists m,
    choose_loop cap (Some acc) (post_queue recs) k = Ok (k + m)%nat /\
    (m <= length recs)%nat /\
    ((0 < m)%nat -> (acc + bytes_sum (firstn m recs) < cap)%Z) /\
    ((m < length recs)%nat -> (cap <= acc + bytes_sum (firstn (S m) recs))%Z).
Proof.
  intros cap recs; induction recs as [|[e b] recs IH]; intros acc k.
  - exists 0%nat; simpl; repeat split; try lia. f_equal; lia.
  - simpl. destruct (cap <=? acc + b)%Z eqn:Hge.
    + exists 0%nat. apply Z.leb_le in Hge. repeat split; simpl; try lia.
      f_equal; lia.
    + apply Z.leb_gt in Hge.
      destruct (IH (acc + b)%Z (S k)) as (m & Hrun & Hlen & Hlt & Hcap).
      exists (S m). rewrite Hrun. repeat split.
      * f_equal; lia.
      * simpl; lia.
      * intros _. try rewrite firstn_cons; cbn [bytes_sum snd]. destruct m as [|m'].
        -- simpl. lia.
        -- specialize (Hlt ltac:(lia)). lia.
      * intros Hm. simpl in Hm. specialize (Hcap ltac:(lia)).
        try rewrite firstn_cons; cbn [bytes_sum snd]. lia.
Qed.

Lemma bytes_sum_firstn_mono : forall recs i j,
  Forall (fun r => (0 <= snd r)%Z) recs -> (i <= j)%nat ->
  (bytes_sum (firstn i recs) <= bytes_sum (firstn j recs))%Z.
Proof.
  induction recs as [|r recs IH]; intros i j Hnn Hij.
  - rewrite !firstn_nil. lia.
  - inversion Hnn as [|? ? Hr Hrest]; subst.
    destruct i as [|i'], j as [|j']; simpl; try lia.
    + assert (0 <= bytes_sum (firstn j' recs))%Z.
      { pose proof (IH 0%nat j' Hrest ltac:(lia)) as H. simpl in H. lia. }
      lia.
    + specialize (IH i' j' Hrest ltac:(lia)). lia.
Qed.

(** ** Retry classification *)

Example retry_500_default : shouldRetryForStatusCode true [] [] 500 = true.
Proof. reflexivity. Qed.

Lemma includes_In : forall l x, includes l x = true <-> In x l.
Proof.
  intros l x. unfold includes. rewrite existsb_exists. split.
  - intros (y & Hy & Heq). apply Z.eqb_eq in Heq. subst. exact Hy.
  - intros Hx. exists x. split; [exact Hx | apply Z.eqb_refl].
Qed.

Lemma isSuccessfulRequest_range : forall st,
  isSuccessfulRequest st = true <-> (200 <= st < 300)%Z.
Proof.
  intros st. unfold isSuccessfulRequest. rewrite andb_true_iff, Z.leb_le, Z.ltb_lt.
  tauto.
Qed.

(** C1 (amended): on a queue of post-records of non-negative sizes,
    [chooseHowManyToSend] selects the longest prefix whose cumulative byte
    size is below [maxPostBytes]: a non-empty selection is below the cap,
    no longer prefix is, and the selection is non-empty exactly when the
    head record alone is below the cap (a head record at or over the cap
    gets nothing selected). *)
Theorem C1_chooseHowManyToSend_longest_prefix :
  forall (maxPostBytes : Z) (recs : list (Record_ * Z)),
  Forall (fun r => (0 <= snd r)%Z) recs ->
  exists n,
    chooseHowManyToSend maxPostBytes (post_queue recs) = Ok n /\
    (n <= length recs)%nat /\
    ((0 < n)%nat -> (bytes_sum (firstn n recs) < maxPostBytes)%Z) /\
    (forall k, (k <= length recs)%nat ->
       (bytes_sum (firstn k recs) < maxPostBytes)%Z -> (k <= n)%nat) /\
    (forall r recs', recs = r :: recs' ->
       ((snd r < maxPostBytes)%Z <-> (1 <= n)%nat)).
Proof.
  intros cap recs Hnn.
  destruct (choose_loop_post cap recs 0%Z 0%nat) as (n & Hrun & Hlen & Hlt & Hcap).
  exists n. split; [exact Hrun|]. split; [exact Hlen|]. split.
  - intros Hn. specialize (Hlt Hn). lia.
  - split.
    + intros k Hk Hsum. destruct (Nat.le_gt_cases k n) as [Hle|Hgt]; [exact Hle|].
      exfalso. specialize (Hcap ltac:(lia)).
      pose proof (bytes_sum_firstn_mono recs (S n) k Hnn ltac:(lia)). lia.
    + intros r recs' ->. split.
      * intros Hr. destruct n as [|n']; [|lia].
        specialize (Hcap ltac:(simpl; lia)). simpl in Hcap. lia.
      * intros Hn. specialize (Hlt ltac:(lia)).
        pose proof (bytes_sum_firstn_mono (r :: recs') 1 n Hnn Hn) as Hm.
        simpl in Hm. lia.
Qed.

Lemma C1_witness :
  Forall (fun r => (0 <= snd r)%Z) sample_recs /\
  exists n,
    chooseHowManyToSend 10 (post_queue sample_recs) = Ok n /\
    (n <= length sample_recs)%nat /\
    ((0 < n)%nat -> (bytes_sum (firstn n sample_recs) < 10)%Z) /\
    (forall k, (k <= length sample_recs)%nat ->
       (bytes_sum (firstn k sample_recs) < 10)%Z -> (k <= n)%nat) /\
    (forall r recs', sample_recs = r :: recs' ->
       ((snd r < 10)%Z <-> (1 <= n)%nat)).
Proof.
  assert (H : Forall (fun r : Record_ * Z => (0 <= snd r)%Z) sample_recs)
    by (unfold sample_recs; repeat constructor; simpl; lia).
  split; [exact H|].
  exact (C1_chooseHowManyToSend_longest_prefix 10 _ H).
Defined.

(** C1 counterexample: a non-empty queue whose only record (18000 bytes)
    is over a 10000-byte cap gets no record selected. *)
Lemma C1_counterexample :
  ~ (exists n, chooseHowManyToSend 10000 (post_queue [(@nil (string * string), 18000%Z)]) = Ok n /\ (1 <= n)%nat).
Proof.
  intros (n & Hn & Hge). vm_compute in Hn. injection Hn as <-. lia.
Qed.

(** C2: the retry classifier never retries a 2xx status, never retries
    when [retryFailedRequests] is off, retries a status on the retry list
    (whatever the don't-retry list says), and otherwise retries exactly
    when the status is not on the don't-retry list; in particular 500
    with both lists empty is retried, 404 on the don't-retry list is not,
    and 429 on both lists is. *)
Theorem C2_shouldRetryForStatusCode_policy :
  forall retryFailedRequests retryStatusCodes dontRetryStatusCodes statusCode,
  ((200 <= statusCode < 300)%Z ->
     shouldRetryForStatusCode retryFailedRequests retryStatusCodes
       dontRetryStatusCodes statusCode = false) /\
  (retryFailedRequests = false ->
     shouldRetryForStatusCode retryFailedRequests retryStatusCodes
       dontRetryStatusCodes statusCode = false) /\
  (~ (200 <= statusCode < 300)%Z -> retryFailedRequests = true ->
     In statusCode retryStatusCodes ->
     shouldRetryForStatusCode retryFailedRequests retryStatusCodes
       dontRetryStatusCodes statusCode = true) /\
  (~ (200 <= statusCode < 300)%Z -> retryFailedRequests = true ->
     ~ In statusCode retryStatusCodes ->
     (shouldRetryForStatusCode retryFailedRequests retryStatusCodes
        dontRetryStatusCodes statusCode = true <->
      ~ In statusCode dontRetryStatusCodes)) /\
  shouldRetryForStatusCode true [] [] 500%Z = true /\
  shouldRetryForStatusCode true [] [404%Z] 404%Z = false /\
  shouldRetryForStatusCode true [429%Z] [429%Z] 429%Z = true.
Proof.
  intros flag retry dont st. unfold shouldRetryForStatusCode.
  repeat split; intros.
  - apply isSuccessfulRequest_range in H. rewrite H. reflexivity.
  - subst. destruct (isSuccessfulRequest st); reflexivity.
  - rewrite <- isSuccessfulRequest_range in H. apply not_true_is_false in H.
    rewrite H, H0. apply includes_In in H1. rewrite H1. reflexivity.
  - rewrite <- isSuccessfulRequest_range in H. apply not_true_is_false in H.
    rewrite H, H0 in H2. simpl in H2.
    rewrite <- includes_In in H1. apply not_true_is_false in H1. rewrite H1 in H2.
    rewrite <- includes_In. intros Hd. rewrite Hd in H2. discriminate.
  - rewrite <- isSuccessfulRequest_range in H. apply not_true_is_false in H.
    rewrite H, H0. simpl.
    rewrite <- includes_In in H1. apply not_true_is_false in H1. rewrite H1.
    rewrite <- includes_In in H2. apply not_true_is_false in H2. rewrite H2.
    reflexivity.
Qed.

(** ** Timeout of a drain request *)

(** Unfold the monad and the storage helpers and compute. *)
Ltac unfold_M :=
  unfold removeEventsFromQueue, persistQueue, attemptWriteLocalStorage,
    bind, ret, gets, modify, emit, throw, lift in *; cbn in *.

(** C4 (code bug): when the drain's asynchronous request times out,
    [xhr.abort()] runs the readystatechange handler, which reports a
    failure with status 0, message [''] and the Retry Classifier's
    decision for status 0, and removes the batch when that decision is
    not to retry. The timeout callback then reports a second failure,
    with message "timeout" and [willRetry] equal to
    [retryFailedRequests], not the classifier's decision, and removes
    [numberToSend] entries once more when [retryFailedRequests] is off.
    The drain stops. *)
Theorem C4_timeout_reports_twice :
  forall cfg s numberToSend batch,
  inflight s = Some (XhrReq false numberToSend batch) ->
  let w0 := shouldRetryForStatusCode (retryFailedRequests cfg)
              (retryStatusCodes cfg) (dontRetryStatusCodes cfg) 0 in
  exists s',
    xhrTimeout cfg s =
      (Ok tt, s',
       (Abort :: (if w0 then [] else [LogError 0]) ++
        [OnFailure 0 "" batch w0;
         OnFailure 0 "timeout" batch (retryFailedRequests cfg)])%list) /\
    executingQueue s' = false /\ inflight s' = None /\
    outQueue s' = skipn (if retryFailedRequests cfg then 0 else numberToSend)
                    (skipn (if w0 then 0 else numberToSend) (outQueue s)).
Proof.
  intros cfg s n batch Hin w0. unfold xhrTimeout, xhrFailed. unfold_M. rewrite Hin.
  cbn. fold w0.
  destruct w0, (retryFailedRequests cfg); cbn;
    repeat match goal with
           | |- context [if useLocalStorage ?x then _ else _] => destruct (useLocalStorage x)
           | |- context [if storageWritable ?x then _ else _] => destruct (storageWritable x)
           | _ => progress cbn
           end;
    eexists; (split; [reflexivity|]); cbn; auto.
Qed.

(** The failing input of C4: retries on, status 0 on the don't-retry
    list, one record in flight. The batch is logged and removed by the
    first report, which says it will not be retried, and the second
    report says it will be. *)
Lemma C4_witness :
  inflight c4_state = Some (XhrReq false 1 [PostEvent sample_evt 40]) /\
  exists s',
    xhrTimeout c4_cfg c4_state =
      (Ok tt, s', [Abort; LogError 0; OnFailure 0 "" [PostEvent sample_evt 40] false;
                   OnFailure 0 "timeout" [PostEvent sample_evt 40] true]) /\
    executingQueue s' = false /\ inflight s' = None /\ outQueue s' = [].
Proof.
  split; [reflexivity|].
  destruct (C4_timeout_reports_twice c4_cfg c4_state 1 [PostEvent sample_evt 40]
              eq_refl) as (s' & H1 & H2 & H3 & H4).
  exists s'. split; [exact H1|]. split; [exact H2|]. split; [exact H3|].
  rewrite H4. reflexivity.
Defined.

(** ** Drain without a collector *)

Lemma failsafe_length : forall q, length (failsafe q) <= length q.
Proof.
  induction q as [|v q IH]; [reflexivity|]. simpl.
  destruct (String.eqb (typeof v) "string" || String.eqb (typeof v) "object");
    simpl; lia.
Qed.

Lemma failsafe_suffix : forall q,
  failsafe q = skipn (length q - length (failsafe q)) q.
Proof.
  induction q as [|v q IH]; [reflexivity|]. cbn [failsafe].
  destruct (String.eqb (typeof v) "string" || String.eqb (typeof v) "object").
  - rewrite Nat.sub_diag. reflexivity.
  - pose proof (failsafe_length q) as Hle.
    replace (length (v :: q) - length (failsafe q))
      with (S (length q - length (failsafe q)))
      by (change (length (v :: q)) with (S (length q)); lia).
    exact IH.
Qed.

Lemma outQueue_failsafe_queue : forall s,
  outQueue (failsafe_queue s) = failsafe (outQueue s).
Proof.
  intros s. unfold failsafe_queue, shift_queue. cbn. symmetry. apply failsafe_suffix.
Qed.


(** ** Failsafe on a [null] head *)

(** C6 (code evaluated at the failing input): a persisted queue [[null]]
    keeps its [null] through the failsafe, because [typeof null] is
    ['object']; the drain then evaluates ['evt' in null], throws a
    TypeError, and leaves [executingQueue] stuck at true. *)
Theorem C6_null_survives_failsafe :
  failsafe [JNull] = [JNull] /\
  exists s',
    executeQueue sample_cfg sample_env (sample_state [JNull] (Some "http://c/tp2"))
      = (Throw TypeError, s', []) /\
    outQueue s' = [JNull] /\ executingQueue s' = true.
Proof.
  split; [reflexivity|]. eexists; split; [reflexivity|]. split; reflexivity.
Qed.

(** ** Single flight *)

(** C8: while a drain is active, the public [executeQueue] and the
    registered buffer flusher, synchronous or not, do nothing: same
    state, no output. *)
Theorem C8_no_reentry_while_executing :
  forall cfg env s,
  executingQueue s = true ->
  executeQueue_public cfg env s = (Ok tt, s, []) /\
  (forall sync, bufferFlusher cfg env sync s = (Ok tt, s, [])).
Proof.
  intros cfg env s Hex. unfold executeQueue_public, bufferFlusher. unfold_M.
  rewrite Hex. rewrite andb_false_r. split; [reflexivity|]. intros sync; reflexivity.
Qed.

Lemma C8_witness :
  executingQueue c4_state = true /\
  executeQueue_public sample_cfg sample_env c4_state = (Ok tt, c4_state, []) /\
  bufferFlusher sample_cfg sample_env true c4_state = (Ok tt, c4_state, []).
Proof.
  split; [reflexivity|].
  destruct (C8_no_reentry_while_executing sample_cfg sample_env c4_state eq_refl)
    as [H1 H2].
  split; [exact H1|]. apply H2.
Defined.

(** ** Loading the persisted queue *)

(** C9: with persistence on, construction never throws: a slot that
    cannot be read, is empty, fails to parse or parses to a non-array
    gives an empty queue, and a slot that parses to an array gives
    exactly that array. ([JSON.parse("")] throws, as JSON requires.) *)
Theorem C9_load_persisted_queue :
  forall cfg env localStorageAccessible bufferSize0 anonymousTracking0 getItem w b,
  JSON_parse env "" = Throw SyntaxError ->
  (forall e, getItem = Throw e ->
     outQueue (OutQueueManager_init cfg env true localStorageAccessible bufferSize0
                 anonymousTracking0 getItem w b) = []) /\
  (getItem = Ok None ->
     outQueue (OutQueueManager_init cfg env true localStorageAccessible bufferSize0
                 anonymousTracking0 getItem w b) = []) /\
  (forall stored, getItem = Ok (Some stored) ->
     (exists e, JSON_parse env stored = Throw e) \/ JSON_parse env stored = Ok PNotArray ->
     outQueue (OutQueueManager_init cfg env true localStorageAccessible bufferSize0
                 anonymousTracking0 getItem w b) = []) /\
  (forall stored items, getItem = Ok (Some stored) ->
     JSON_parse env stored = Ok (PArray items) ->
     outQueue (OutQueueManager_init cfg env true localStorageAccessible bufferSize0
                 anonymousTracking0 getItem w b) = items).
Proof.
  intros cfg env acc bsz anon getItem w b Hempty.
  unfold OutQueueManager_init, loadOutQueue. cbn [outQueue]. repeat split.
  - intros e ->. reflexivity.
  - intros ->. reflexivity.
  - intros stored -> Hbad. destruct stored as [|c rest]; [reflexivity|].
    destruct Hbad as [(e & He) | Hn]; rewrite ?He, ?Hn; reflexivity.
  - intros stored items -> Hp. destruct stored as [|c rest].
    + rewrite Hempty in Hp. discriminate.
    + rewrite Hp. reflexivity.
Qed.

Lemma C9_witness :
  JSON_parse sample_env "" = Throw SyntaxError /\
  (forall e, Ok (Some "{broken") = Throw e ->
     outQueue (OutQueueManager_init sample_cfg sample_env true true 1 false
                 (Ok (Some "{broken")) true false) = []) /\
  (Ok (Some "{broken") = @Ok (option string) None ->
     outQueue (OutQueueManager_init sample_cfg sample_env true true 1 false
                 (Ok (Some "{broken")) true false) = []) /\
  (forall stored, Ok (Some "{broken") = Ok (Some stored) ->
     (exists e, JSON_parse sample_env stored = Throw e) \/
     JSON_parse sample_env stored = Ok PNotArray ->
     outQueue (OutQueueManager_init sample_cfg sample_env true true 1 false
                 (Ok (Some "{broken")) true false) = []) /\
  (forall stored items, Ok (Some "{broken") = Ok (Some stored) ->
     JSON_parse sample_env stored = Ok (PArray items) ->
     outQueue (OutQueueManager_init sample_cfg sample_env true true 1 false
                 (Ok (Some "{broken")) true false) = items).
Proof.
  split; [reflexivity|].
  apply (C9_load_persisted_queue sample_cfg sample_env true 1 false
           (Ok (Some "{broken")) true false).
  reflexivity.
Defined.

(** ** Requests sent without queueing *)

(** C10: a request sent without queueing touches neither the in-memory
    queue nor the persisted slot, and neither does its outcome, which is
    reported with [willRetry = false] for any configuration and never
    re-queues the event. *)
Theorem C10_bypass_outside_queue :
  forall cfg env s body url i status statusText,
  (exists s',
     sendPostRequestWithoutQueueing body url s =
       (Ok tt, s', [SendWithoutQueueing url (fst body)]) /\
     outQueue s' = outQueue s /\ storageSlot s' = storageSlot s /\
     history s' = history s /\ executingQueue s' = executingQueue s /\
     inflight s' = inflight s) /\
  (forall b, nth_error (bypassInflight s) i = Some b ->
     exists s',
       handle cfg env (EvBypassDone i status statusText) s =
         (Ok tt, s', [if isSuccessfulRequest status then OnSuccess [b]
                      else OnFailure status statusText [b] false]) /\
       outQueue s' = outQueue s /\ storageSlot s' = storageSlot s /\
       history s' = history s /\ executingQueue s' = executingQueue s /\
       inflight s' = inflight s).
Proof.
  intros cfg env s body url i status text. split.
  - unfold sendPostRequestWithoutQueueing. unfold_M.
    eexists; split; [reflexivity|]. cbn. auto.
  - intros b Hb. cbn [handle]. unfold bypassReadyStateDone. unfold_M. rewrite Hb.
    destruct (isSuccessfulRequest status); cbn;
      eexists; (split; [reflexivity|]); cbn; auto.
Qed.

(** ** Enqueueing an oversized event *)

(** C3 counterexample: in GET mode without XMLHttpRequest, an event whose
    URL is over [maxGetBytes] only produces the warning: it is neither
    sent nor queued. *)
Lemma C3_counterexample :
  exists s' bytes,
    enqueueRequest c3_cfg sample_env c3_request "http://c"
      (sample_state [] None) = (Ok tt, s', [Warn bytes 20]) /\
    outQueue s' = [] /\ storageSlot s' = None.
Proof. do 2 eexists. split; [reflexivity|]. split; reflexivity. Qed.

(** ** FIFO order of send attempts *)

Lemma mono_from_app : forall l1 l2 lo mid,
  mono_from lo l1 -> Forall (fun x => x <= mid) l1 -> lo <= mid ->
  mono_from mid l2 -> mono_from lo (l1 ++ l2)%list.
Proof.
  induction l1 as [|x l1 IH]; intros l2 lo mid H1 Hle Hlo H2; simpl.
  - destruct l2 as [|y l2]; simpl in *; [exact I|]. split; [lia | tauto].
  - simpl in H1. inversion Hle; subst. split; [tauto|].
    apply (IH l2 x mid); tauto.
Qed.

Lemma mono_from_weaken : forall l lo lo', lo' <= lo -> mono_from lo l -> mono_from lo' l.
Proof.
  intros [|x l] lo lo' Hle H; simpl in *; [exact I|]. split; [lia | tauto].
Qed.

Lemma send_froms_app : forall e1 e2,
  send_froms (e1 ++ e2)%list = (send_froms e1 ++ send_froms e2)%list.
Proof.
  induction e1 as [|e e1 IH]; intros e2; [reflexivity|].
  destruct e; simpl; rewrite ?IH; reflexivity.
Qed.

Lemma send_ok_extend : forall cfg env h ext e,
  send_ok cfg env h e -> send_ok cfg env (h ++ ext)%list e.
Proof.
  intros cfg env h ext e H. destruct e as [req from count| | | | | | |]; try exact I.
  destruct req as [u records|u records|u|u]; simpl in *.
  - destruct H as (Hr & Hc & H1). split; [|tauto].
    rewrite Hr. rewrite skipn_app, firstn_app.
    assert (Hl : count <= length (skipn from h)).
    { rewrite Hr in Hc. rewrite length_firstn in Hc. lia. }
    replace (count - length (skipn from h)) with 0 by lia. simpl. rewrite app_nil_r.
    reflexivity.
  - destruct H as (Hr & Hc & H1). split; [|tauto].
    rewrite Hr. rewrite skipn_app, firstn_app.
    assert (Hl : count <= length (skipn from h)).
    { rewrite Hr in Hc. rewrite length_firstn in Hc. lia. }
    replace (count - length (skipn from h)) with 0 by lia. simpl. rewrite app_nil_r.
    reflexivity.
  - destruct H as (Hc & v & curl & Hv & Hu). split; [exact Hc|].
    exists v, curl. split; [|exact Hu]. rewrite nth_error_app1; [exact Hv|].
    apply nth_error_Some. congruence.
  - destruct H as (Hc & v & curl & Hv & Hu). split; [exact Hc|].
    exists v, curl. split; [|exact Hu]. rewrite nth_error_app1; [exact Hv|].
    apply nth_error_Some. congruence.
Qed.
Lemma choose_loop_le : forall m bc rest k n,
  choose_loop m bc rest k = Ok n -> n <= k + length rest.
Proof.
  intros m bc rest. revert bc. induction rest as [|v rest IH]; intros bc k n H; simpl in H.
  - inversion H; subst. simpl. lia.
  - destruct (get_bytes v) as [b|e]; [|discriminate].
    destruct (js_ge (js_add bc b) m).
    + inversion H; subst. simpl. lia.
    + apply IH in H. simpl. lia.
Qed.

Lemma chooseHowManyToSend_le : forall m q n,
  chooseHowManyToSend m q = Ok n -> n <= length q.
Proof. intros m q n H. apply choose_loop_le in H. lia. Qed.

Lemma Inv_shift_queue : forall n s, Inv s -> Inv (shift_queue n s).
Proof.
  intros n s (H1 & H2 & H3 & H4 & H5). unfold Inv, shift_queue; cbn.
  assert (Hl : length (outQueue s) = length (history s) - shifted s)
    by (rewrite H2, length_skipn; reflexivity).
  split; [lia|]. split.
  - rewrite H2 at 1. rewrite skipn_skipn.
    destruct (Nat.le_gt_cases n (length (outQueue s))) as [Hle|Hgt].
    + rewrite Nat.min_l by exact Hle. f_equal. lia.
    + rewrite Nat.min_r by lia. rewrite !skipn_all2 by lia. reflexivity.
  - tauto.
Qed.

Lemma Inv_push_queue : forall v s, Inv s -> Inv (push_queue v s).
Proof.
  intros v s (H1 & H2 & H3 & H4 & H5). unfold Inv, push_queue; cbn.
  split; [rewrite length_app; lia|]. split.
  - rewrite H2, skipn_app. replace (shifted s - length (history s)) with 0 by lia.
    reflexivity.
  - tauto.
Qed.

Lemma Inv_set_executingQueue : forall b s, Inv s ->
  (b = false -> inflight s = None) -> Inv (set_executingQueue b s).
Proof.
  intros b s (H1 & H2 & H3 & H4 & H5) Hb. unfold Inv; cbn.
  destruct b.
  - split; [exact H1|]. split; [exact H2|]. split; [intros; reflexivity|].
    split; auto.
  - rewrite (Hb eq_refl). split; [exact H1|]. split; [exact H2|].
    split; [discriminate|]. split; discriminate.
Qed.

Lemma Inv_set_inflight_None : forall s, Inv s -> Inv (set_inflight None s).
Proof.
  intros s (H1 & H2 & _). unfold Inv; cbn. repeat split; try assumption; discriminate.
Qed.

Lemma Inv_set_inflight_Xhr : forall sync n batch s, Inv s -> executingQueue s = true ->
  Inv (set_inflight (Some (XhrReq sync n batch)) s).
Proof.
  intros sync n batch s (H1 & H2 & _) He. unfold Inv; cbn.
  split; [exact H1|]. split; [exact H2|]. split; [|split; discriminate].
  intros; exact He.
Qed.

Lemma Inv_set_inflight_Image : forall s, Inv s -> executingQueue s = true ->
  Inv (set_inflight (Some ImageReq) s).
Proof.
  intros s (H1 & H2 & _) He. unfold Inv; cbn.
  split; [exact H1|]. split; [exact H2|]. split; [discriminate|]. split; auto; discriminate.
Qed.

Lemma Inv_set_inflight_IdService : forall s, Inv s -> executingQueue s = true ->
  Inv (set_inflight (Some IdServiceReq) s).
Proof.
  intros s (H1 & H2 & _) He. unfold Inv; cbn.
  split; [exact H1|]. split; [exact H2|]. split; [discriminate|]. split; auto; discriminate.
Qed.

(** Setters of fields the invariant does not read. *)
Ltac inv_frame := intros ? s HI; exact HI.
Lemma Inv_set_storageSlot : forall v s, Inv s -> Inv (set_storageSlot v s).
Proof. inv_frame. Qed.
Lemma Inv_set_idServiceCalled : forall v s, Inv s -> Inv (set_idServiceCalled v s).
Proof. inv_frame. Qed.
Lemma Inv_set_useLocalStorage : forall v s, Inv s -> Inv (set_useLocalStorage v s).
Proof. inv_frame. Qed.
Lemma Inv_set_anonymousTracking : forall v s, Inv s -> Inv (set_anonymousTracking v s).
Proof. inv_frame. Qed.
Lemma Inv_set_configCollectorUrl : forall v s, Inv s -> Inv (set_configCollectorUrl v s).
Proof. inv_frame. Qed.
Lemma Inv_set_bufferSize : forall v s, Inv s -> Inv (set_bufferSize v s).
Proof. inv_frame. Qed.
Lemma Inv_set_storageWritable : forall v s, Inv s -> Inv (set_storageWritable v s).
Proof. inv_frame. Qed.
Lemma Inv_set_beaconAccepts : forall v s, Inv s -> Inv (set_beaconAccepts v s).
Proof. inv_frame. Qed.
Lemma Inv_set_bypassInflight : forall v s, Inv s -> Inv (set_bypassInflight v s).
Proof. inv_frame. Qed.

Lemma Post_Rel : forall cfg env s r s' effs,
  Post cfg env s (r, s', effs) <-> Rel cfg env s s' effs.
Proof. reflexivity. Qed.

Lemma Rel_trans : forall cfg env s0 s1 s2 e1 e2,
  Rel cfg env s0 s1 e1 -> Rel cfg env s1 s2 e2 -> Rel cfg env s0 s2 (e1 ++ e2)%list.
Proof.
  intros cfg env s0 s1 s2 e1 e2 (_ & Hs1 & [x1 Hh1] & Hm1 & Hf1 & Ho1)
    (HI2 & Hs2 & [x2 Hh2] & Hm2 & Hf2 & Ho2).
  split; [exact HI2|]. split; [lia|].
  split; [exists (x1 ++ x2)%list; rewrite Hh2, Hh1, app_assoc; reflexivity|].
  rewrite send_froms_app. split; [apply (mono_from_app _ _ _ (shifted s1)); assumption|].
  split.
  - apply Forall_app. split; [|exact Hf2].
    eapply Forall_impl; [|exact Hf1]. intros a Ha. simpl in Ha. lia.
  - apply Forall_app. split; [|exact Ho2].
    eapply Forall_impl; [|exact Ho1]. intros a Ha. rewrite Hh2. apply send_ok_extend. exact Ha.
Qed.

Lemma Rel_pre : forall cfg env s0 s1 s2 e,
  shifted s0 <= shifted s1 -> history s1 = history s0 -> Rel cfg env s1 s2 e ->
  Rel cfg env s0 s2 e.
Proof.
  intros cfg env s0 s1 s2 e Hs Hh (HI & Hs2 & [x Hx] & Hm & Hf & Ho).
  split; [exact HI|]. split; [lia|]. split; [exists x; rewrite Hx, Hh; reflexivity|].
  split; [eapply mono_from_weaken; [exact Hs|exact Hm]|]. tauto.
Qed.

Lemma Rel_refl : forall cfg env s s', Inv s' -> shifted s' = shifted s ->
  history s' = history s -> Rel cfg env s s' [].
Proof.
  intros cfg env s s' HI Hs Hh. split; [exact HI|]. split; [lia|].
  split; [exists []; rewrite app_nil_r; exact Hh|]. repeat constructor.
Qed.

Lemma failsafe_queue_facts : forall s, Inv s -> inflight s = None ->
  Inv (failsafe_queue s) /\ inflight (failsafe_queue s) = None /\
  shifted s <= shifted (failsafe_queue s) /\ history (failsafe_queue s) = history s.
Proof.
  intros s HI Hn. unfold failsafe_queue. split.
  - apply Inv_shift_queue; exact HI.
  - unfold shift_queue; cbn. split; [exact Hn|]. split; [lia|reflexivity].
Qed.

Lemma mono_from_const : forall l lo, Forall (fun x => x = lo) l -> mono_from lo l.
Proof.
  induction l as [|x l IH]; intros lo H; simpl; [exact I|].
  inversion H; subst. split; [lia|]. apply IH. assumption.
Qed.

(** A step whose requests all start at the queue front [shifted s]. *)
Lemma Rel_front : forall cfg env s s' effs, Inv s' ->
  shifted s <= shifted s' -> (exists ext, history s' = (history s ++ ext)%list) ->
  Forall (fun x => x = shifted s) (send_froms effs) ->
  Forall (send_ok cfg env (history s)) effs -> Rel cfg env s s' effs.
Proof.
  intros cfg env s s' effs HI Hs [ext Hh] Hf Ho. split; [exact HI|]. split; [exact Hs|].
  split; [exists ext; exact Hh|].
  split; [apply mono_from_const; exact Hf|]. split.
  - eapply Forall_impl; [|exact Hf]. intros a Ha. simpl in Ha. lia.
  - rewrite Hh. eapply Forall_impl; [|exact Ho]. intros a Ha. apply send_ok_extend. exact Ha.
Qed.

Ltac hist_ext := first [exists []; cbn; symmetry; apply app_nil_r | eexists; cbn; reflexivity].

Lemma send_ok_batch : forall cfg env s n batch req,
  Inv s -> batch = firstn n (outQueue s) -> batch <> [] -> n <= length (outQueue s) ->
  (req = PostRequest \/ req = BeaconRequest) -> forall u,
  send_ok cfg env (history s) (Send (req u batch) (shifted s) n).
Proof.
  intros cfg env s n batch req (_ & Hq & _) Hb Hne Hn Hr u.
  assert (Hl : n = length batch) by (rewrite Hb, length_firstn; lia).
  assert (H1 : 1 <= n) by (destruct batch; [congruence|simpl in Hl; lia]).
  destruct Hr as [Hr|Hr]; subst req; simpl; rewrite <- Hq; auto.
Qed.

Lemma send_ok_head : forall cfg env s v q curl u req,
  Inv s -> outQueue s = v :: q -> createGetUrl_entry cfg env curl v = Ok u ->
  (req = GetRequest \/ req = ImageRequest) ->
  send_ok cfg env (history s) (Send (req u) (shifted s) 1).
Proof.
  intros cfg env s v q curl u req (H1 & Hq & _) Hv Hu Hr.
  assert (Hn : nth_error (history s) (shifted s) = Some v).
  { rewrite <- (firstn_skipn (shifted s) (history s)), nth_error_app2.
    - rewrite length_firstn, Nat.min_l by exact H1. rewrite Nat.sub_diag, <- Hq, Hv. reflexivity.
    - rewrite length_firstn. lia. }
  destruct Hr as [Hr|Hr]; subst req; simpl; split; eauto.
Qed.

Ltac solve_inv :=
  repeat match goal with
  | |- Inv (set_storageSlot _ _) => apply Inv_set_storageSlot
  | |- Inv (set_idServiceCalled _ _) => apply Inv_set_idServiceCalled
  | |- Inv (set_useLocalStorage _ _) => apply Inv_set_useLocalStorage
  | |- Inv (set_anonymousTracking _ _) => apply Inv_set_anonymousTracking
  | |- Inv (set_configCollectorUrl _ _) => apply Inv_set_configCollectorUrl
  | |- Inv (set_bufferSize _ _) => apply Inv_set_bufferSize
  | |- Inv (set_storageWritable _ _) => apply Inv_set_storageWritable
  | |- Inv (set_beaconAccepts _ _) => apply Inv_set_beaconAccepts
  | |- Inv (set_bypassInflight _ _) => apply Inv_set_bypassInflight
  | |- Inv (push_queue _ _) => apply Inv_push_queue
  | |- Inv (shift_queue _ _) => apply Inv_shift_queue
  | |- Inv (set_executingQueue _ _) =>
      apply Inv_set_executingQueue; [|intros ?; cbn in *; congruence]
  | |- Inv (set_inflight None _) => apply Inv_set_inflight_None
  | |- Inv (set_inflight (Some ImageReq) _) =>
      apply Inv_set_inflight_Image; [|reflexivity]
  | |- Inv (set_inflight (Some IdServiceReq) _) =>
      apply Inv_set_inflight_IdService; [|reflexivity]
  | |- Inv (set_inflight (Some (XhrReq _ _ _)) _) =>
      apply Inv_set_inflight_Xhr; [|reflexivity]
  end; try assumption.

Ltac symex_step rec :=
  cbn -[Post shift_queue executeQueue_fuel getBody getQuerystring createGetUrl getUTF8Length] in *;
  match goal with
  | |- context [executeQueue_fuel ?c ?e ?sy ?f ?s'] =>
      rec c e sy f s'; destruct (executeQueue_fuel c e sy f s') as [[? ?] ?] eqn:?
  | |- context [match ?x with _ => _ end] =>
      lazymatch type of x with
      | prod _ _ => fail
      | _ => lazymatch x with
             | context [match _ with _ => _ end] => fail
             | _ => destruct x eqn:?
             end
      end
  | |- context [match ?x with _ => _ end] =>
      lazymatch type of x with
      | prod _ _ => fail
      | _ => destruct x eqn:?
      end
  end.

(** A drain started with no request in flight keeps the invariant; its
    requests start at the queue front, which only moves forward. *)
Lemma drain_good : forall cfg env sync fuel s, Inv s -> inflight s = None ->
  Post cfg env s (executeQueue_fuel cfg env sync fuel s).
Proof.
  intros cfg env sync fuel. revert sync.
  induction fuel as [|fuel IH]; intros sync s HI Hn.
  - apply Rel_refl; auto.
  - cbn [executeQueue_fuel].
    unfold removeEventsFromQueue, persistQueue, attemptWriteLocalStorage, setXhrCallbacks.
    unfold bind, ret, gets, modify, emit, throw, lift.
    cbn -[Post failsafe_queue shift_queue executeQueue_fuel].
    destruct (failsafe_queue_facts s HI Hn) as (HI1 & Hn1 & Hs1 & Hh1).
    remember (failsafe_queue s) as s1 eqn:Es1. clear Es1.
    repeat symex_step ltac:(fun c e sy f s' =>
      let H := fresh "Hrec" in pose proof (IH sy s') as H).
    all: cbn -[Post shift_queue executeQueue_fuel] in *.
    all: apply Post_Rel, (Rel_pre _ _ s s1); [exact Hs1|exact Hh1|]; clear Hs1 Hh1.
    all: try (apply Rel_front; [solve_inv| cbn; lia | hist_ext | repeat constructor | ]).
    all: repeat match goal with
         | H : choose_loop _ _ _ _ = Ok _ |- _ => apply choose_loop_le in H
         end.
    all: try match goal with
         | Hrec : Inv ?s' -> _ -> Post ?c ?e ?s' (?r, ?s2, ?l1)
           |- Rel ?c ?e _ ?s2 (?x :: ?y :: ?l1) =>
             change (x :: y :: l1) with ([x; y] ++ l1)%list;
             apply (Rel_trans _ _ _ s');
               [ | apply (Post_Rel c e s' r); apply Hrec; [solve_inv | cbn; assumption]]
         end.
    all: try (apply Rel_front; [solve_inv| cbn; lia | hist_ext | repeat constructor | ]).
    all: repeat apply Forall_cons; try apply Forall_nil; try exact I.
    all: try match goal with
         | Hq : outQueue ?s1 = _ |- send_ok _ _ _ (Send (_ _ _) _ _) =>
             eapply send_ok_batch;
               [assumption | rewrite Hq; symmetry; assumption | discriminate
               | rewrite Hq; simpl; lia | auto]
         | Hq : outQueue ?s1 = _ |- send_ok _ _ _ (Send (_ _) _ _) =>
             eapply send_ok_head; [assumption | exact Hq | eassumption | auto]
         | Hq : outQueue ?s1 = _ |- _ = firstn _ _ =>
             cbn; rewrite Hq; first [reflexivity | symmetry; assumption]
         | H : firstn _ _ = _ |- _ = length _ =>
             rewrite <- H, length_firstn; simpl; lia
         | |- _ = length _ => reflexivity
         end.
Qed.

Lemma Inv_idle : forall s, Inv s -> executingQueue s = false -> inflight s = None.
Proof.
  intros s (_ & _ & H3 & H4 & H5) He.
  destruct (inflight s) as [[sy n b| |]|] eqn:E; [| | |reflexivity].
  - specialize (H3 sy n b eq_refl). congruence.
  - specialize (H4 eq_refl). congruence.
  - specialize (H5 eq_refl). congruence.
Qed.

(** The same holds for every call and browser event. *)
Lemma handle_good : forall cfg env ev s, Inv s -> Post cfg env s (handle cfg env ev s).
Proof.
  intros cfg env ev s HI.
  destruct ev; cbn [handle];
    unfold enqueueRequest, executeQueue_public, bufferFlusher, xhrReadyStateDone, xhrTimeout,
      xhrFailed, imageOnload, imageOnerror, imageTimeout, bypassReadyStateDone,
      sendPostRequestWithoutQueueing, eventTooBigWarning, executeQueue, executeQueue_sync,
      removeEventsFromQueue, persistQueue, attemptWriteLocalStorage;
    unfold bind, ret, gets, modify, emit, throw, lift;
    cbn -[Post shift_queue executeQueue_fuel getBody getQuerystring createGetUrl getUTF8Length].
  all: repeat symex_step ltac:(fun c e sy f s' =>
    let H := fresh "Hrec" in pose proof (drain_good c e sy f s') as H).
  all: cbn -[Post shift_queue executeQueue_fuel getBody getQuerystring createGetUrl getUTF8Length] in *.
  all: repeat match goal with
       | H : _ && _ = true |- _ => apply andb_true_iff in H; destruct H
       | H : negb _ = true |- _ => apply negb_true_iff in H
       end.
  all: apply Post_Rel.
  all: try match goal with
       | Hrec : Inv ?s' -> _ -> Post ?c ?e ?s' (?r, ?s2, ?l1) |- Rel ?c ?e _ ?s2 ?L =>
           lazymatch L with
           | l1 => change l1 with ([] ++ l1)%list
           | ?x :: l1 => change (x :: l1) with ([x] ++ l1)%list
           | ?x :: ?y :: l1 => change (x :: y :: l1) with ([x; y] ++ l1)%list
           | ?x :: ?y :: ?z :: l1 => change (x :: y :: z :: l1) with ([x; y; z] ++ l1)%list
           end;
           apply (Rel_trans _ _ _ s');
             [ | apply (Post_Rel c e s' r); apply Hrec;
                 [solve_inv | cbn in *; first [assumption | reflexivity | apply Inv_idle; assumption]]]
       end.
  all: try (apply Rel_front; [solve_inv | cbn; lia | hist_ext | repeat constructor | ]).
  all: repeat apply Forall_cons; try apply Forall_nil; try exact I.
Qed.

(** And for every run. *)
Lemma run_good : forall cfg env evs s, Inv s ->
  let '(s', effs) := run cfg env evs s in Rel cfg env s s' effs.
Proof.
  intros cfg env evs. induction evs as [|ev evs IH]; intros s HI; cbn [run].
  - apply Rel_refl; auto.
  - pose proof (handle_good cfg env ev s HI) as Hh.
    destruct (handle cfg env ev s) as [[r s1] e1].
    change (Rel cfg env s s1 e1) in Hh. pose proof (IH s1 (proj1 Hh)) as Hr.
    destruct (run cfg env evs s1) as [s2 e2].
    exact (Rel_trans _ _ _ _ _ _ _ Hh Hr).
Qed.

Lemma Inv_init : forall cfg env ul la bsz anon gi sw ba,
  Inv (OutQueueManager_init cfg env ul la bsz anon gi sw ba).
Proof.
  intros. unfold Inv, OutQueueManager_init; cbn.
  split; [lia|]. split; [reflexivity|]. repeat split; discriminate.
Qed.

Lemma mono_from_In : forall l lo x, mono_from lo l -> In x l -> lo <= x.
Proof.
  induction l as [|y l IH]; intros lo x Hm Hin; [destruct Hin|].
  destruct Hm as [Hy Hm]. destruct Hin as [<-|Hin]; [exact Hy|].
  specialize (IH y x Hm Hin). lia.
Qed.

Lemma send_froms_In : forall effs j r f c,
  nth_error effs j = Some (Send r f c) -> In f (send_froms effs).
Proof.
  induction effs as [|e effs IH]; intros j r f c H; [destruct j; discriminate|].
  destruct j as [|j]; simpl in H.
  - inversion H; subst. simpl. left. reflexivity.
  - specialize (IH j r f c H). destruct e; simpl; auto.
Qed.

Lemma mono_send_order : forall effs lo i j r1 f1 c1 r2 f2 c2,
  mono_from lo (send_froms effs) -> i <= j ->
  nth_error effs i = Some (Send r1 f1 c1) -> nth_error effs j = Some (Send r2 f2 c2) ->
  f1 <= f2.
Proof.
  induction effs as [|e effs IH]; intros lo i j r1 f1 c1 r2 f2 c2 Hm Hij Hi Hj;
    [destruct i; discriminate|].
  destruct i as [|i]; destruct j as [|j]; simpl in Hi, Hj.
  - inversion Hi; subst. inversion Hj; subst. lia.
  - inversion Hi; subst. simpl in Hm. destruct Hm as [_ Hm].
    exact (mono_from_In _ _ _ Hm (send_froms_In _ _ _ _ _ Hj)).
  - lia.
  - destruct e; simpl in Hm;
      [destruct Hm as [_ Hm] | ..]; (eapply IH; [exact Hm | | exact Hi | exact Hj]); lia.
Qed.

(** X16: on every run of a manager from its construction, the requests that
    carry queued records are oldest-first. Positions count the records in
    the order they entered the queue: the loaded queue first, then each
    enqueued event ([history], which only grows). The queue is always what
    is left of that sequence after removals from its front. Each request
    carries a contiguous segment of it (a POST or beacon batch) or one
    record (a GET or pixel request). If a request carries record [b] and
    some request carries an older record [a < b], then some request at or
    before it in the output already carried [a]. *)
Theorem X16_fifo_order : forall cfg env ul la bsz anon gi sw ba evs,
  let s := OutQueueManager_init cfg env ul la bsz anon gi sw ba in
  let '(s', effs) := run cfg env evs s in
  (exists ext, history s' = (history s ++ ext)%list) /\
  outQueue s' = skipn (shifted s') (history s') /\
  Forall (send_ok cfg env (history s')) effs /\
  (forall i j a b ei ej, a < b ->
     nth_error effs i = Some ei -> covers ei a ->
     nth_error effs j = Some ej -> covers ej b ->
     exists i' ei', i' <= j /\ nth_error effs i' = Some ei' /\ covers ei' a).
Proof.
  intros cfg env ul la bsz anon gi sw ba evs s.
  pose proof (run_good cfg env evs s (Inv_init cfg env ul la bsz anon gi sw ba)) as Hr.
  destruct (run cfg env evs s) as [s' effs].
  destruct Hr as ((_ & Hq & _) & _ & Hh & Hm & _ & Ho).
  split; [exact Hh|]. split; [exact Hq|]. split; [exact Ho|].
  intros i j a b ei ej Hab Hi Ha Hj Hb.
  destruct ei as [r1 f1 c1| | | | | | |]; try (simpl in Ha; contradiction).
  destruct ej as [r2 f2 c2| | | | | | |]; try (simpl in Hb; contradiction).
  simpl in Ha, Hb.
  destruct (Nat.le_gt_cases f2 a) as [Hle|Hgt].
  - exists j, (Send r2 f2 c2). split; [lia|]. split; [exact Hj|]. simpl. lia.
  - exists i, (Send r1 f1 c1). split; [|split; [exact Hi|simpl; lia]].
    destruct (Nat.le_gt_cases i j) as [Hij|Hji]; [exact Hij|].
    pose proof (mono_send_order _ _ j i _ _ _ _ _ _ Hm ltac:(lia) Hj Hi). lia.
Qed.

(** C7 (code bug): with [retryFailedRequests] off, the timeout of an
    asynchronous request removes its batch twice: once in the handler
    that [xhr.abort()] runs (status 0 is not retried), and once more in
    the timeout callback. On this run the batch is the first record; the
    second record, queued behind it and never sent, is removed by the
    second removal. The queue and the persisted slot end empty, and no
    request ever carried the second record (position 1). *)
Theorem C7_timeout_drops_unsent :
  let '(s', effs) := run c7_cfg sample_env c7_events c7_init in
  history s' = [c7_record c7_request1; c7_record c7_request2] /\
  outQueue s' = [] /\ storageSlot s' = Some [] /\ executingQueue s' = false /\
  effs = [Send (PostRequest ("http://c" ++ path c7_cfg) [c7_record c7_request1]) 0 1;
          Abort; LogError 0; OnFailure 0 "" [c7_record c7_request1] false;
          OnFailure 0 "timeout" [c7_record c7_request1] false] /\
  Forall (fun e => ~ covers e 1) effs.
Proof.
  vm_compute.
  do 5 (split; [reflexivity|]).
  repeat apply Forall_cons; try apply Forall_nil; intros; lia.
Qed.

(** The drain never changes the sequence of enqueued records. *)
Lemma drain_history : forall cfg env sync fuel s,
  match executeQueue_fuel cfg env sync fuel s with (_, s', _) => history s' = history s end.
Proof.
  intros cfg env sync fuel. revert sync.
  induction fuel as [|fuel IH]; intros sync s; [reflexivity|].
  cbn [executeQueue_fuel].
  unfold removeEventsFromQueue, persistQueue, attemptWriteLocalStorage, setXhrCallbacks.
  unfold bind, ret, gets, modify, emit, throw, lift.
  repeat symex_step ltac:(fun c e sy f s' => let H := fresh "Hrec" in pose proof (IH sy s') as H).
  all: cbn in *; try reflexivity.
  all: congruence.
Qed.

(** C3 (amended): [enqueueRequest] on an event at or over the cap of its
    transport. In POST mode ([bytes >= maxPostBytes]) the event is sent at
    once without queueing to the collector URL, after a size warning; the
    queue, the persisted slot and the history are untouched. In GET mode
    with [maxGetBytes > 0] and a URL of [bytes >= maxGetBytes], the warning
    is emitted and the event is sent without queueing as a POST to
    [url + postPath] only when XMLHttpRequest is in use; otherwise it is
    dropped. Either way it is neither queued nor persisted. In GET mode
    with [maxGetBytes <= 0] there is no size check and the event is
    appended to the queue. *)
Theorem C3_enqueue_oversized : forall cfg env request url s,
  let body := getBody env request in
  let qs := getQuerystring env request in
  let bytes := getUTF8Length env (createGetUrl cfg env (url ++ path cfg) qs) in
  match enqueueRequest cfg env request url s with
  | (r, s', effs) =>
    (usePost cfg = true -> (maxPostBytes cfg <= snd body)%Z ->
       r = Ok tt /\ outQueue s' = outQueue s /\ storageSlot s' = storageSlot s /\
       history s' = history s /\
       effs = [Warn (snd body) (maxPostBytes cfg);
               SendWithoutQueueing (url ++ path cfg) (fst body)]) /\
    (usePost cfg = false -> (0 < maxGetBytes cfg)%Z -> (maxGetBytes cfg <= bytes)%Z ->
       r = Ok tt /\ outQueue s' = outQueue s /\ storageSlot s' = storageSlot s /\
       history s' = history s /\
       effs = Warn bytes (maxGetBytes cfg)
              :: (if useXhr cfg then [SendWithoutQueueing (url ++ postPath cfg) (fst body)]
                  else [])) /\
    (usePost cfg = false -> (maxGetBytes cfg <= 0)%Z ->
       history s' = (history s ++ [QStr qs])%list)
  end.
Proof.
  intros cfg env request url s body qs bytes. subst body qs bytes.
  unfold enqueueRequest, sendPostRequestWithoutQueueing, eventTooBigWarning, executeQueue,
    persistQueue, attemptWriteLocalStorage.
  unfold bind, ret, gets, modify, emit, throw, lift.
  repeat symex_step ltac:(fun c e sy f s' =>
    let H := fresh "Hrec" in pose proof (drain_history c e sy f s') as H).
  all: cbn -[getBody getQuerystring createGetUrl getUTF8Length] in *.
  all: repeat match goal with
       | H : (_ <=? _)%Z = true |- _ => apply Z.leb_le in H
       | H : (_ <=? _)%Z = false |- _ => apply Z.leb_gt in H
       | H : (_ <? _)%Z = true |- _ => apply Z.ltb_lt in H
       | H : (_ <? _)%Z = false |- _ => apply Z.ltb_ge in H
       | H : _ && _ = true |- _ => apply andb_true_iff in H; destruct H
       | H : _ && _ = false |- _ => apply andb_false_iff in H; destruct H
       end.
  all: repeat split; intros; try congruence; try lia.
Qed.

(** ** Byte counting *)

Lemma utf8_size_cons : forall x l, utf8_size (x :: l) = (utf8_width x + utf8_size l)%Z.
Proof. reflexivity. Qed.

Lemma utf16_decode_cons : forall c rest, utf16_decode (c :: rest) =
  if (55296 <=? c)%Z && (c <=? 56319)%Z then
    match rest with
    | c2 :: rest' =>
        if (56320 <=? c2)%Z && (c2 <=? 57343)%Z then
          option_map (cons (65536 + (c - 55296) * 1024 + (c2 - 56320))%Z) (utf16_decode rest')
        else None
    | [] => None
    end
  else if (56320 <=? c)%Z && (c <=? 57343)%Z then None
  else option_map (cons c) (utf16_decode rest).
Proof. reflexivity. Qed.

Lemma utf8_length_measure : forall n cs cps,
  length cs <= n ->
  Forall (fun c => (0 <= c <= 65535)%Z) cs ->
  utf16_decode cs = Some cps ->
  utf8_length cs = (utf8_size cps + Z.of_nat (count_occ Z.eq_dec cs 65535%Z))%Z.
Proof.
  induction n as [|n IH]; intros cs cps Hlen Hr Hd.
  - destruct cs; [|cbn in Hlen; lia]. unfold option_map in Hd. injection Hd as <-. reflexivity.
  - destruct cs as [|c rest]; [cbn in Hd; injection Hd as <-; reflexivity|].
    inversion Hr as [|? ? Hc Hrest]; subst.
    rewrite utf16_decode_cons in Hd. cbn [utf8_length count_occ].
    destruct ((55296 <=? c)%Z && (c <=? 56319)%Z) eqn:Hhi.
    + apply andb_true_iff in Hhi as [H1 H2]. apply Z.leb_le in H1, H2.
      destruct rest as [|c2 rest']; [discriminate|].
      destruct ((56320 <=? c2)%Z && (c2 <=? 57343)%Z) eqn:Hlo; [|discriminate].
      destruct (utf16_decode rest') as [cps'|] eqn:Hd'; [|discriminate].
      apply andb_true_iff in Hlo as [H3 H4]. apply Z.leb_le in H3, H4.
      set (cp := (65536 + (c - 55296) * 1024 + (c2 - 56320))%Z) in Hd.
      assert (Hcp : (65536 <= cp)%Z) by (subst cp; lia). clearbody cp.
      unfold option_map in Hd. injection Hd as <-.
      inversion Hrest as [|? ? Hc2 Hrest']; subst.
      rewrite (IH rest' cps') by (cbn in Hlen; lia || assumption).
      destruct (Z.eq_dec c 65535); [lia|]. destruct (Z.eq_dec c2 65535); [lia|].
      rewrite utf8_size_cons. unfold utf8_width at 1.
      replace (c <=? 127)%Z with false by (symmetry; apply Z.leb_gt; lia).
      replace (c <=? 2047)%Z with false by (symmetry; apply Z.leb_gt; lia).
      replace ((55296 <=? c)%Z && (c <=? 57343)%Z) with true
        by (symmetry; apply andb_true_iff; split; apply Z.leb_le; lia).
      replace (cp <=? 127)%Z with false by (symmetry; apply Z.leb_gt; lia).
      replace (cp <=? 2047)%Z with false by (symmetry; apply Z.leb_gt; lia).
      replace (cp <=? 65535)%Z with false by (symmetry; apply Z.leb_gt; lia).
      cbn [count_occ]. destruct (Z.eq_dec c2 65535); lia.
    + destruct ((56320 <=? c)%Z && (c <=? 57343)%Z) eqn:Hlo; [discriminate|].
      destruct (utf16_decode rest) as [cps'|] eqn:Hd'; [|discriminate].
      unfold option_map in Hd. injection Hd as <-.
      rewrite (IH rest cps') by (cbn in Hlen; lia || assumption).
      assert (Hns : ((55296 <=? c)%Z && (c <=? 57343)%Z) = false).
      { apply andb_false_iff in Hhi, Hlo. apply andb_false_iff.
        destruct Hhi as [Hh|Hh]; [left; exact Hh|].
        destruct Hlo as [Hl|Hl]; [apply Z.leb_gt in Hh, Hl; lia|right; exact Hl]. }
      rewrite utf8_size_cons. unfold utf8_width at 1.
      rewrite Hns.
      destruct (c <=? 127)%Z eqn:E1; [destruct (Z.eq_dec c 65535); [apply Z.leb_le in E1; lia|]; lia|].
      destruct (c <=? 2047)%Z eqn:E2; [destruct (Z.eq_dec c 65535); [apply Z.leb_le in E2; lia|]; lia|].
      replace (c <=? 65535)%Z with true by (symmetry; apply Z.leb_le; lia).
      destruct (c <? 65535)%Z eqn:E3.
      * apply Z.ltb_lt in E3. destruct (Z.eq_dec c 65535); [lia|]. lia.
      * apply Z.ltb_ge in E3. destruct (Z.eq_dec c 65535); [|lia]. lia.
Qed.

(** X1: on a well-formed UTF-16 string, [getUTF8Length] is the size of
    its UTF-8 encoding plus one byte for every U+FFFF unit, which the
    [< 65535] test counts as four bytes instead of three. *)
Theorem X1_getUTF8Length_utf8_size : forall env s cps,
  forallb (fun c => (0 <=? c)%Z && (c <=? 65535)%Z) (charCodes env s) = true ->
  utf16_decode (charCodes env s) = Some cps ->
  getUTF8Length env s = (utf8_size cps + Z.of_nat (count_occ Z.eq_dec (charCodes env s) 65535%Z))%Z.
Proof.
  intros env s cps Hr Hd. unfold getUTF8Length.
  apply (utf8_length_measure (length (charCodes env s))); [lia| |exact Hd].
  rewrite forallb_forall in Hr. apply Forall_forall. intros c Hc.
  specialize (Hr c Hc). apply andb_true_iff in Hr as [H1 H2].
  apply Z.leb_le in H1, H2. lia.
Qed.

Lemma X1_witness :
  getUTF8Length sample_env "pv" = (utf8_size [112; 118] + 0)%Z.
Proof.
  apply (X1_getUTF8Length_utf8_size sample_env "pv" [112; 118]%Z); vm_compute; reflexivity.
Defined.

(** ** Querystrings *)

Lemma str_app_assoc : forall a b c : string, (a ++ b) ++ c = a ++ (b ++ c).
Proof. induction a as [|x a IH]; intros; cbn; [reflexivity|]. now rewrite IH. Qed.

Lemma str_app_nil_r : forall a : string, a ++ "" = a.
Proof. induction a as [|x a IH]; cbn; [reflexivity|]. now rewrite IH. Qed.

Lemma has_char_app : forall c a b, has_char c (a ++ b) = has_char c a || has_char c b.
Proof. induction a as [|x a IH]; intros; cbn; [reflexivity|]. rewrite IH. apply orb_assoc. Qed.

Lemma split_on_no_sep : forall sep x, has_char sep x = false -> split_on sep x = [x].
Proof.
  intros sep; induction x as [|c x IH]; intros H; cbn in *; [reflexivity|].
  apply orb_false_iff in H as [H1 H2]. rewrite Ascii.eqb_sym, H1, IH by exact H2. reflexivity.
Qed.

Lemma split_on_app_sep : forall sep x y, has_char sep x = false ->
  split_on sep (x ++ String sep y) = x :: split_on sep y.
Proof.
  intros sep; induction x as [|c x IH]; intros y H; cbn in *.
  - rewrite Ascii.eqb_refl. reflexivity.
  - apply orb_false_iff in H as [H1 H2]. rewrite Ascii.eqb_sym, H1, IH by exact H2. reflexivity.
Qed.

Lemma amp_join_app : forall l1 l2, amp_join (l1 ++ l2) = amp_join l1 ++ amp_join l2.
Proof.
  induction l1 as [|x l1 IH]; intros; cbn; [reflexivity|].
  rewrite IH, !str_app_assoc. reflexivity.
Qed.

Lemma split_on_amp_join : forall x ys,
  has_char "&" x = false -> Forall (fun y => has_char "&" y = false) ys ->
  split_on "&" (x ++ amp_join ys) = x :: ys.
Proof.
  intros x ys; revert x; induction ys as [|y ys IH]; intros x Hx Hys; cbn.
  - rewrite str_app_nil_r. apply split_on_no_sep. exact Hx.
  - inversion Hys; subst. rewrite split_on_app_sep by exact Hx. f_equal. apply IH; assumption.
Qed.

Lemma parse_param_kv : forall k v, has_char "=" k = false -> parse_param (k ++ "=" ++ v) = (k, v).
Proof.
  induction k as [|c k IH]; intros v H; cbn -[Ascii.eqb] in *; [reflexivity|].
  apply orb_false_iff in H as [H1 H2]. rewrite Ascii.eqb_sym, H1, IH by exact H2. reflexivity.
Qed.

Section Qs.
Variable env : JsEnv.

Lemma qs_pairs_false : forall r, qs_pairs env false r = amp_join (map kv (map (encp env) (nc r))).
Proof.
  induction r as [|[k v] r IH]; cbn; [reflexivity|].
  unfold nc in *. destruct (lowPriorityKey k); cbn; [exact IH|].
  rewrite IH. unfold kv; cbn. rewrite !str_app_assoc. reflexivity.
Qed.

Lemma qs_pairs_true : forall r,
  qs_pairs env true r = match map (encp env) (nc r) with
                        | [] => ""
                        | p :: ps => kv p ++ amp_join (map kv ps)
                        end.
Proof.
  induction r as [|[k v] r IH]; cbn; [reflexivity|].
  unfold nc in *. destruct (lowPriorityKey k); cbn; [exact IH|].
  rewrite qs_pairs_false. unfold kv, nc; cbn. rewrite !str_app_assoc. reflexivity.
Qed.

Lemma qs_context_amp : forall r, qs_context env r = amp_join (map kv (ctxp env r)).
Proof.
  intros r. unfold qs_context, ctxp. cbn.
  destruct (assoc "co" r), (assoc "cx" r); cbn; unfold kv; cbn;
    rewrite ?str_app_nil_r, ?str_app_assoc; reflexivity.
Qed.

Lemma qs_params_split : forall r, qs_params env r = (map (encp env) (nc r) ++ ctxp env r)%list.
Proof.
  intros r. reflexivity.
Qed.

End Qs.

Lemma parse_joined : forall p ps, Forall good_pair (p :: ps) ->
  parseQuerystring ("?" ++ kv p ++ amp_join (map kv ps)) = Some (p :: ps).
Proof.
  intros p ps H. cbn -[kv amp_join]. f_equal.
  inversion H as [|? ? [Hp1 Hp2] Hps]; subst.
  rewrite split_on_amp_join.
  - cbn [map]. destruct p as [k v]. unfold kv at 1. cbn [fst snd].
    rewrite parse_param_kv by exact Hp2. f_equal.
    rewrite map_map. clear -Hps. induction ps as [|[k' v'] ps IH]; [reflexivity|].
    inversion Hps as [|? ? [H1 H2] H3]; subst. cbn [map]. unfold kv at 1. cbn [fst snd].
    rewrite parse_param_kv by exact H2. f_equal. apply IH; assumption.
  - exact Hp1.
  - apply Forall_map. eapply Forall_impl; [|exact Hps]. intros q [Hq _]. exact Hq.
Qed.

Lemma assoc_In : forall k r v, assoc k r = Some v -> In (k, v) r.
Proof.
  intros k; induction r as [|[k' v'] r IH]; intros v H; cbn in H; [discriminate|].
  destruct (String.eqb k k') eqn:E.
  - injection H as <-. apply String.eqb_eq in E; subst. left; reflexivity.
  - right. apply IH; exact H.
Qed.

Lemma replace_first_qmark_head : forall rep x,
  replace_first_qmark rep ("?" ++ x) = (rep ++ x)%string.
Proof. reflexivity. Qed.


(** X2: when no encoded key holds ['&'] or ['='], no encoded value holds
    ['&'], [dateNow] holds no ['&'] and some field other than [co] and
    [cx] is present, the querystring [getQuerystring] builds reads back
    as its parameters, and the GET URL [createGetUrl] builds is the
    collector URL followed by a querystring that reads back as the same
    parameters, behind [stm=dateNow] when [useStm] is set. *)
Theorem X2_getQuerystring_roundtrip : forall cfg env request curl,
  forallb (fun '(k, v) =>
             negb (has_char "&" (encodeURIComponent env k))
             && negb (has_char "=" (encodeURIComponent env k))
             && negb (has_char "&" (encodeURIComponent env (toString env v)))) request = true ->
  has_char "&" (dateNow env) = false ->
  existsb (fun '(k, _) => negb (lowPriorityKey k)) request = true ->
  parseQuerystring (getQuerystring env request) = Some (qs_params env request) /\
  exists q, createGetUrl cfg env curl (getQuerystring env request) = (curl ++ q)%string /\
            parseQuerystring q =
              Some (if useStm cfg then ("stm", dateNow env) :: qs_params env request
                    else qs_params env request).
Proof.
  intros cfg env r curl Henc Hnow Hne.
  assert (Hgood : Forall good_pair (map (encp env) (nc r) ++ ctxp env r)).
  { apply Forall_app; split.
    - apply Forall_map. apply Forall_forall. intros [k v] Hin.
      unfold nc in Hin. apply filter_In in Hin as [Hin _].
      rewrite forallb_forall in Henc. specialize (Henc _ Hin). cbn in Henc.
      apply andb_true_iff in Henc as [Henc H3]. apply andb_true_iff in Henc as [H1 H2].
      apply negb_true_iff in H1, H2, H3.
      unfold good_pair, kv, encp; cbn [fst snd]. rewrite !has_char_app, H1, H2, H3.
      split; reflexivity.
    - assert (Hc : forall ck v, (ck = "co" \/ ck = "cx") -> assoc ck r = Some v ->
                good_pair (ck, encodeURIComponent env (toString env v))).
      { intros ck v Hck Ha. apply assoc_In in Ha. rewrite forallb_forall in Henc.
        specialize (Henc _ Ha). cbn in Henc. apply andb_true_iff in Henc as [_ H3].
        apply negb_true_iff in H3. unfold good_pair, kv; cbn [fst snd].
        rewrite !has_char_app, H3.
        destruct Hck as [-> | ->]; split; reflexivity. }
      unfold ctxp. cbn [flat_map].
      destruct (assoc "co" r) as [v1|] eqn:E1, (assoc "cx" r) as [v2|] eqn:E2; cbn [app];
        repeat constructor; eapply Hc; eauto. }
  rewrite <- qs_params_split in Hgood.
  assert (Hform : exists p ps, qs_params env r = p :: ps /\
                  getQuerystring env r = "?" ++ kv p ++ amp_join (map kv ps)).
  { unfold getQuerystring. rewrite qs_pairs_true, qs_context_amp, qs_params_split.
    destruct (map (encp env) (nc r)) as [|p ps] eqn:E.
    - exfalso. apply existsb_exists in Hne as [[k v] [Hin Hk]].
      assert (In (k, v) (nc r)) by (apply filter_In; auto).
      apply (in_map (encp env)) in H. rewrite E in H. exact H.
    - exists p, (ps ++ ctxp env r)%list. split; [reflexivity|].
      rewrite map_app, amp_join_app, str_app_assoc. reflexivity. }
  destruct Hform as (p & ps & Hq & Hs). rewrite Hq in Hgood |- *. rewrite Hs.
  split; [apply parse_joined; exact Hgood|].
  unfold createGetUrl. destruct (useStm cfg).
  - eexists; split; [reflexivity|].
    rewrite replace_first_qmark_head.
    replace (("?stm=" ++ dateNow env ++ "&") ++ kv p ++ amp_join (map kv ps))
      with ("?" ++ kv ("stm", dateNow env) ++ amp_join (map kv (p :: ps)))
      by (unfold kv; cbn [fst snd map amp_join]; rewrite !str_app_assoc; reflexivity).
    apply parse_joined. constructor; [|exact Hgood].
    split; unfold kv; cbn [fst snd]; rewrite ?has_char_app; [rewrite Hnow|]; reflexivity.
  - eexists; split; [reflexivity|]. apply parse_joined. exact Hgood.
Qed.

Lemma X2_witness :
  parseQuerystring (getQuerystring sample_env c3_request) = Some (qs_params sample_env c3_request) /\
  exists q, createGetUrl sample_cfg sample_env "http://c/i" (getQuerystring sample_env c3_request)
              = ("http://c/i" ++ q)%string /\
            parseQuerystring q = Some (qs_params sample_env c3_request).
Proof.
  apply (X2_getQuerystring_roundtrip sample_cfg sample_env c3_request "http://c/i");
    vm_compute; reflexivity.
Defined.

(** ** Transport resolution *)

Lemma parseInt_iP : forall x, String.prefix "iP" x = true -> parseInt x = None.
Proof.
  intros [|c x] H; [discriminate|]. cbn [String.prefix] in H.
  destruct (ascii_dec "i" c) as [E|]; [subst c; reflexivity|discriminate].
Qed.

Lemma parseInt_Macintosh : forall x, String.prefix "Macintosh;" x = true -> parseInt x = None.
Proof.
  intros [|c x] H; [discriminate|]. cbn [String.prefix] in H.
  destruct (ascii_dec "M" c) as [E|]; [subst c; reflexivity|discriminate].
Qed.

Lemma parseInt_match_at : forall pre m i,
  (forall x, String.prefix pre x = true -> parseInt x = None) ->
  prefix_ok pre m = true -> (i = 0 \/ i = 1) -> parseInt (match_at m i) = None.
Proof.
  intros pre m i Hp H Hi. unfold prefix_ok in H. unfold match_at.
  destruct m as [|a [|b m]]; destruct Hi as [-> | ->]; cbn in *; try reflexivity;
    repeat match goal with
    | H : _ && _ = true |- _ => apply andb_true_iff in H as [? ?]
    end;
    match goal with
    | |- parseInt match ?o with _ => _ end = None => destruct o; [apply Hp; assumption|reflexivity]
    end.
Qed.

(** X3: [hasWebKitBeaconBug] never reports the bug when the matches the
    user agent gives have the shape of their patterns (entries 0 and 1
    start with ["iP"] for the iOS pattern and with ["Macintosh;"] for the
    macOS one): [parseInt] of [match[0]] and [match[1]] is then NaN, and
    a comparison with NaN is false. *)
Theorem X3_hasWebKitBeaconBug_never : forall uaMatch,
  webkit_matches_ok uaMatch = true -> hasWebKitBeaconBug uaMatch = false.
Proof.
  intros uaMatch H. unfold webkit_matches_ok in H. apply andb_true_iff in H as [Hi Hm].
  unfold hasWebKitBeaconBug, isIosVersionLessThanOrEqualTo, isMacosxVersionLessThanOrEqualTo.
  destruct (uaMatch ios_pattern) as [[|o m]|] eqn:Ei; cbn [orb];
  (destruct (uaMatch macosx_pattern) as [[|o' m']|] eqn:Em; cbn [andb]; try reflexivity).
  all: try rewrite (parseInt_match_at "iP" (o :: m) 0 parseInt_iP Hi (or_introl eq_refl)).
  all: try rewrite (parseInt_match_at "Macintosh;" (o' :: m') 0 parseInt_Macintosh Hm (or_introl eq_refl)).
  all: reflexivity.
Qed.

Lemma X3_witness : hasWebKitBeaconBug sample_uaMatch = false.
Proof.
  apply X3_hasWebKitBeaconBug_never. vm_compute. reflexivity.
Defined.


(** ** Queue names *)

Lemma list_ascii_of_string_app : forall a b,
  list_ascii_of_string (a ++ b) = (list_ascii_of_string a ++ list_ascii_of_string b)%list.
Proof. induction a as [|c a IH]; intros b; cbn; [reflexivity|]. now rewrite IH. Qed.


(** X5: the storage key [queueName] tells apart both the tracker id and
    the transport: two managers share a key only with the same id and
    the same choice between POST and GET. *)
Theorem X5_queueName_injective : forall id1 id2 p1 p2,
  queueName id1 p1 = queueName id2 p2 -> id1 = id2 /\ p1 = p2.
Proof.
  intros id1 id2 p1 p2 H. unfold queueName in H.
  cbn [String.append] in H. repeat (injection H as H).
  apply (f_equal (fun s => rev (list_ascii_of_string s))) in H.
  rewrite !list_ascii_of_string_app, !rev_app_distr in H.
  destruct p1, p2; cbn in H; try discriminate; split; try reflexivity;
    repeat (injection H as H);
    rewrite <- (string_of_list_ascii_of_string id1), <- (string_of_list_ascii_of_string id2);
    f_equal; rewrite <- (rev_involutive (list_ascii_of_string id1)), H; apply rev_involutive.
Qed.

Lemma X5_witness : "sp" = "sp" /\ true = true.
Proof.
  apply (X5_queueName_injective "sp" "sp" true true). reflexivity.
Defined.

(** ** Send timestamps *)

Lemma set_field_twice : forall k v1 v2 r, set_field k v2 (set_field k v1 r) = set_field k v2 r.
Proof.
  induction r as [|[k' v'] r IH]; cbn.
  - rewrite String.eqb_refl. reflexivity.
  - destruct (String.eqb k k') eqn:E; cbn; rewrite E; [reflexivity|]. now rewrite IH.
Qed.

Lemma set_field_count : forall k v r, field_count k r <= 1 -> field_count k (set_field k v r) = 1.
Proof.
  induction r as [|[k' v'] r IH]; cbn; intros H.
  - rewrite String.eqb_refl. reflexivity.
  - destruct (String.eqb k k') eqn:E; cbn; rewrite E; [lia|]. apply IH. exact H.
Qed.

Lemma set_field_lookup_same : forall k v r, field_lookup k (set_field k v r) = Some v.
Proof.
  induction r as [|[k' v'] r IH]; cbn.
  - rewrite String.eqb_refl. reflexivity.
  - destruct (String.eqb k k') eqn:E; cbn; rewrite E; [reflexivity|exact IH].
Qed.

Lemma set_field_lookup_other : forall k k2 v r, k2 <> k ->
  field_lookup k2 (set_field k v r) = field_lookup k2 r.
Proof.
  induction r as [|[k' v'] r IH]; cbn; intros Hne.
  - apply String.eqb_neq in Hne. rewrite Hne. reflexivity.
  - destruct (String.eqb k k') eqn:E; cbn; [|rewrite IH by exact Hne; reflexivity].
    apply String.eqb_eq in E; subst k'. apply String.eqb_neq in Hne. rewrite Hne. reflexivity.
Qed.

(** X6: [attachStmToEvent] keeps only the latest timestamp: attaching
    twice is attaching the second one; on records with at most one [stm]
    field every record ends up with exactly one, holding the timestamp
    given; no other field changes. *)
Theorem X6_attachStmToEvent_latest : forall t1 t2 evs,
  attachStmToEvent t2 (attachStmToEvent t1 evs) = attachStmToEvent t2 evs /\
  (Forall (fun r => field_count "stm" r <= 1) evs ->
   Forall (fun r => field_count "stm" r = 1 /\ field_lookup "stm" r = Some t2)
     (attachStmToEvent t2 evs)) /\
  Forall2 (fun r r' => forall k, k <> "stm" -> field_lookup k r' = field_lookup k r)
    evs (attachStmToEvent t2 evs).
Proof.
  intros t1 t2 evs. unfold attachStmToEvent. split; [|split].
  - rewrite map_map. apply map_ext. intros r. apply set_field_twice.
  - intros H. apply Forall_map. eapply Forall_impl; [|exact H].
    intros r Hr. split; [apply set_field_count; exact Hr|apply set_field_lookup_same].
  - induction evs as [|r evs IH]; constructor; [|exact IH].
    intros k Hk. apply set_field_lookup_other. exact Hk.
Qed.

Lemma X6_witness :
  Forall (fun r => field_count "stm" r = 1 /\ field_lookup "stm" r = Some "2")
    (attachStmToEvent "2" [sample_evt; ("stm", "1") :: sample_evt]).
Proof.
  destruct (X6_attachStmToEvent_latest "1" "2" [sample_evt; ("stm", "1") :: sample_evt])
    as (_ & H & _).
  apply H. repeat constructor.
Defined.

(** ** A head record over the cap *)

Lemma handle_stalled : forall cfg env ev s,
  executingQueue s = true -> inflight s = None ->
  match handle cfg env ev s with
  | (_, s', effs) =>
      executingQueue s' = true /\ inflight s' = None /\
      (exists ext, outQueue s' = (outQueue s ++ ext)%list) /\
      forallb (fun e => negb (drain_request e)) effs = true
  end.
Proof.
  intros cfg env ev s Hex Hin.
  destruct ev; cbn [handle];
    unfold enqueueRequest, executeQueue_public, bufferFlusher, xhrReadyStateDone, xhrTimeout,
      xhrFailed, imageOnload, imageOnerror, imageTimeout, bypassReadyStateDone,
      sendPostRequestWithoutQueueing, eventTooBigWarning, executeQueue, executeQueue_sync,
      removeEventsFromQueue, persistQueue, attemptWriteLocalStorage;
    unfold bind, ret, gets, modify, emit, throw, lift;
    cbn -[shift_queue executeQueue_fuel getBody getQuerystring createGetUrl getUTF8Length].
  all: repeat symex_step ltac:(fun c e sy f s' => idtac).
  all: cbn -[shift_queue executeQueue_fuel getBody getQuerystring createGetUrl getUTF8Length] in *.
  all: try congruence.
  all: repeat match goal with
       | H : _ && _ = true |- _ => apply andb_true_iff in H; destruct H
       | H : negb _ = true |- _ => apply negb_true_iff in H
       end.
  all: try congruence.
  all: repeat split; try assumption; try reflexivity.
  all: try (exists []; symmetry; apply app_nil_r).
  all: try (eexists; reflexivity).
Qed.

Lemma run_stalled : forall cfg env evs s,
  executingQueue s = true -> inflight s = None ->
  let '(s', effs) := run cfg env evs s in
  executingQueue s' = true /\ inflight s' = None /\
  (exists ext, outQueue s' = (outQueue s ++ ext)%list) /\
  forallb (fun e => negb (drain_request e)) effs = true.
Proof.
  intros cfg env evs. induction evs as [|ev evs IH]; intros s Hex Hin; cbn [run].
  - repeat split; try assumption. exists []. symmetry; apply app_nil_r.
  - pose proof (handle_stalled cfg env ev s Hex Hin) as Hh.
    destruct (handle cfg env ev s) as [[r s1] e1].
    destruct Hh as (Hex1 & Hin1 & [ext1 Hq1] & Hf1).
    pose proof (IH s1 Hex1 Hin1) as Hr.
    destruct (run cfg env evs s1) as [s2 e2].
    destruct Hr as (Hex2 & Hin2 & [ext2 Hq2] & Hf2).
    repeat split; try assumption.
    + exists (ext1 ++ ext2)%list. rewrite Hq2, Hq1, app_assoc. reflexivity.
    + rewrite forallb_app, Hf1, Hf2. reflexivity.
Qed.

(** X8: a post-record at the queue head whose size reaches the POST cap
    ([enqueueRequest] never queues one, a queue loaded from storage can
    hold one) stalls the manager for good: the drain selects nothing,
    sends nothing and leaves [executingQueue] set, and from then on no
    event of any run sends anything on the drain's behalf, while the
    queue only grows behind that record. *)
Theorem X8_oversized_head_stalls : forall cfg env s e b q curl evs,
  useXhr cfg = true ->
  pendingIdService cfg (idServiceCalled s) = None ->
  configCollectorUrl s = Some curl ->
  inflight s = None ->
  outQueue s = PostEvent e b :: q ->
  (maxPostBytes cfg <= b)%Z ->
  match executeQueue cfg env s with
  | (r, s1, e1) =>
      r = Ok tt /\ e1 = [] /\ executingQueue s1 = true /\ outQueue s1 = outQueue s /\
      let '(s2, e2) := run cfg env evs s1 in
      executingQueue s2 = true /\
      (exists ext, outQueue s2 = (outQueue s ++ ext)%list) /\
      forallb (fun e => negb (drain_request e)) e2 = true
  end.
Proof.
  intros cfg env s e b q curl evs Hx Hid Hc Hin Hq Hb.
  unfold executeQueue. rewrite Hq. cbn [length executeQueue_fuel].
  unfold bind, ret, gets, modify, emit, throw, lift.
  unfold failsafe_queue, shift_queue. rewrite Hq. cbn -[run pendingIdService chooseHowManyToSend].
  rewrite Nat.sub_diag. cbn -[run pendingIdService chooseHowManyToSend]. rewrite Hc. cbn -[run pendingIdService chooseHowManyToSend].
  rewrite Hid, Hx. cbn -[run pendingIdService].
  replace (maxPostBytes cfg <=? b)%Z with true by (symmetry; apply Z.leb_le; exact Hb).
  cbn -[run]. 
  match goal with
  | |- context [run cfg env evs ?s1] =>
      pose proof (run_stalled cfg env evs s1 eq_refl Hin) as Hr;
      destruct (run cfg env evs s1) as [s2 e2]
  end.
  destruct Hr as (Hex2 & _ & [ext Hq2] & Hf2). cbn in Hq2.
  repeat split; try assumption; try reflexivity.
  exists ext. rewrite Hq2. reflexivity.
Qed.

Lemma X8_witness :
  match executeQueue sample_cfg sample_env
          (sample_state [PostEvent sample_evt 40000] (Some "http://c/tp2")) with
  | (r, s1, e1) =>
      r = Ok tt /\ e1 = [] /\ executingQueue s1 = true /\
      outQueue s1 = [PostEvent sample_evt 40000] /\
      let '(s2, e2) := run sample_cfg sample_env [EvExecuteQueue; EvBufferFlush true] s1 in
      executingQueue s2 = true /\
      (exists ext, outQueue s2 = ([PostEvent sample_evt 40000] ++ ext)%list) /\
      forallb (fun e => negb (drain_request e)) e2 = true
  end.
Proof.
  apply (X8_oversized_head_stalls sample_cfg sample_env
           (sample_state [PostEvent sample_evt 40000] (Some "http://c/tp2"))
           sample_evt 40000 [] "http://c/tp2" [EvExecuteQueue; EvBufferFlush true]);
    cbn; (reflexivity || lia).
Defined.

(** ** Beacons *)

Lemma failsafe_post : forall recs, failsafe (post_queue recs) = post_queue recs.
Proof. intros [|r recs]; reflexivity. Qed.

Lemma skipn_post_queue : forall k recs, skipn k (post_queue recs) = post_queue (skipn k recs).
Proof. intros. unfold post_queue. rewrite skipn_map. reflexivity. Qed.

Lemma firstn_post_queue : forall k recs, firstn k (post_queue recs) = post_queue (firstn k recs).
Proof. intros. unfold post_queue. rewrite firstn_map. reflexivity. Qed.

Lemma Forall_skipn_ : forall A (P : A -> Prop) k l, Forall P l -> Forall P (skipn k l).
Proof.
  intros A P k; induction k as [|k IH]; intros l H; [exact H|].
  destruct l as [|x l]; [constructor|]. inversion H; subst. apply IH. assumption.
Qed.

Lemma beacon_drain : forall cfg env sync n s recs curl,
  useXhr cfg = true -> useBeacon cfg = true -> beaconAccepts s = true ->
  pendingIdService cfg (idServiceCalled s) = None -> configCollectorUrl s = Some curl ->
  outQueue s = post_queue recs -> Forall (fun r => (snd r < maxPostBytes cfg)%Z) recs ->
  length recs < n ->
  match executeQueue_fuel cfg env sync n s with
  | (r, s', effs) =>
      r = Ok tt /\ outQueue s' = [] /\ executingQueue s' = false /\ inflight s' = inflight s /\
      beacon_records effs = post_queue recs /\ forallb beacon_or_success effs = true
  end.
Proof.
  intros cfg env sync n. revert sync.
  induction n as [|n IH]; intros sync s recs curl Hx Hb Ha Hid Hc Hq Hlt Hn; [lia|].
  cbn [executeQueue_fuel]. unfold removeEventsFromQueue, persistQueue, attemptWriteLocalStorage.
  unfold bind, ret, gets, modify, emit, throw, lift.
  cbn beta iota zeta. unfold failsafe_queue. rewrite Hq, failsafe_post, Nat.sub_diag.
  destruct recs as [|r0 recs'].
  { cbn. rewrite Hq. cbn. repeat split; try assumption; try reflexivity. }
  destruct (choose_loop_post (maxPostBytes cfg) (r0 :: recs') 0 0) as (m & Hm & Hml & _ & Hcap).
  destruct m as [|m'].
  { inversion Hlt as [|? ? H0 _]; subst. specialize (Hcap ltac:(cbn; lia)).
    destruct r0 as [e0 b0]; cbn in Hcap, H0. lia. }
  unfold chooseHowManyToSend. unfold post_queue in Hm, Hq |- *.
  cbn [map] in Hm, Hq |- *.
  repeat progress (cbn -[executeQueue_fuel choose_loop pendingIdService];
                   rewrite ?Hq, ?Hc, ?Hid, ?Hx, ?Hb, ?Ha, ?Hm).
  assert (Hsk : forall k, skipn k (map (fun r : Record_ * Z => PostEvent (fst r) (snd r)) recs')
                 = post_queue (skipn k recs')) by (intros; unfold post_queue; apply skipn_map).
  inversion Hlt as [|? ? H0 Hlt']; subst.
  cbn -[executeQueue_fuel].
  destruct (useLocalStorage s);
  repeat progress (cbn -[executeQueue_fuel]; rewrite ?Hq);
  try destruct (storageWritable s);
  repeat progress (cbn -[executeQueue_fuel]; rewrite ?Hq).
  all: (match goal with
   | |- context [executeQueue_fuel _ _ _ ?f ?s1] =>
       specialize (IH false s1 (skipn m' recs') curl Hx Hb);
       destruct (executeQueue_fuel cfg env false f s1) as [[r2 s2] e2] eqn:Erec
   end);
  (destruct IH as (Hr2 & Hq2 & Hex2 & Hin2 & Hbr2 & Hf2);
   [cbn; exact Ha | cbn; exact Hid | cbn; exact Hc | cbn; rewrite Hq; cbn; apply Hsk
   | apply Forall_skipn_; exact Hlt' | rewrite length_skipn; cbn in Hn; lia | ]);
  cbn -[executeQueue_fuel beacon_records] in *; rewrite ?Hq in Hin2; cbn in Hin2;
  repeat split; try assumption.
  all: try (rewrite Hbr2; cbn -[skipn firstn]; f_equal; rewrite <- (firstn_skipn m' recs') at 3;
            unfold post_queue; rewrite map_app; reflexivity).
  all: try (rewrite Hf2; reflexivity).
  all: unfold beacon_records; cbn [flat_map app]; fold (beacon_records e2); rewrite Hbr2; cbn [app]; f_equal; unfold post_queue; rewrite <- skipn_map, firstn_skipn; reflexivity.
Qed.

(** X9: with the beacon in use and accepted by the browser, one drain
    empties a queue of post-records below the POST cap: it ends with the
    queue empty and [executingQueue] reset, the request in flight as it
    was, and its output is beacons and success callbacks only, the
    beacons carrying exactly the queued records in order. *)
Theorem X9_beacon_drain_flushes : forall cfg env s recs curl,
  useXhr cfg = true -> useBeacon cfg = true -> beaconAccepts s = true ->
  pendingIdService cfg (idServiceCalled s) = None -> configCollectorUrl s = Some curl ->
  outQueue s = post_queue recs -> forallb (fun r => (snd r <? maxPostBytes cfg)%Z) recs = true ->
  match executeQueue cfg env s with
  | (r, s', effs) =>
      r = Ok tt /\ outQueue s' = [] /\ executingQueue s' = false /\ inflight s' = inflight s /\
      beacon_records effs = post_queue recs /\ forallb beacon_or_success effs = true
  end.
Proof.
  intros cfg env s recs curl Hx Hb Ha Hid Hc Hq Hf. unfold executeQueue.
  apply (beacon_drain cfg env false _ s recs curl); try assumption.
  - rewrite forallb_forall in Hf. apply Forall_forall. intros r Hr.
    apply Z.ltb_lt. exact (Hf r Hr).
  - rewrite Hq. unfold post_queue. rewrite length_map. lia.
Qed.

Lemma X9_witness :
  match executeQueue beacon_cfg sample_env
          (set_beaconAccepts true (sample_state (post_queue sample_recs) (Some "http://c/tp2"))) with
  | (r, s', effs) =>
      r = Ok tt /\ outQueue s' = [] /\ executingQueue s' = false /\ inflight s' = None /\
      beacon_records effs = post_queue sample_recs /\ forallb beacon_or_success effs = true
  end.
Proof.
  apply (X9_beacon_drain_flushes beacon_cfg sample_env
           (set_beaconAccepts true (sample_state (post_queue sample_recs) (Some "http://c/tp2")))
           sample_recs "http://c/tp2"); reflexivity.
Defined.

(** ** A synchronous flush and the identity service *)

(** X17: a synchronous buffer flush whose drain reaches the identity
    service sets [idServiceCalled], then throws an [InvalidAccessError]
    at [xhr.timeout = connectionTimeout] before the request is sent. The
    drain is left marked active with nothing in flight, so the identity
    service is never called, and no later event of any run sends
    anything on the drain's behalf. *)
Theorem X17_sync_flush_idService_stalls : forall cfg env s ids evs,
  bufferFlusherRegistered s = true -> executingQueue s = false -> inflight s = None ->
  failsafe (outQueue s) <> [] -> configCollectorUrl s <> None ->
  hasXMLHttpRequest cfg = true -> pendingIdService cfg (idServiceCalled s) = Some ids ->
  match bufferFlusher cfg env true s with
  | (r, s1, e1) =>
      r = Throw InvalidAccessError /\ e1 = [] /\
      idServiceCalled s1 = true /\ executingQueue s1 = true /\ inflight s1 = None /\
      let '(s2, e2) := run cfg env evs s1 in
      executingQueue s2 = true /\
      forallb (fun e => negb (drain_request e)) e2 = true
  end.
Proof.
  intros cfg env s ids evs Hreg Hex Hin Hne Hc Hx Hid.
  unfold bufferFlusher, executeQueue_sync. unfold bind, ret, gets, modify, emit, throw, lift.
  rewrite Hreg, Hex. cbn -[run pendingIdService failsafe_queue].
  assert (Hq : outQueue (failsafe_queue s) = failsafe (outQueue s))
    by apply outQueue_failsafe_queue.
  assert (Hc' : configCollectorUrl (failsafe_queue s) = configCollectorUrl s) by reflexivity.
  assert (Hi' : idServiceCalled (failsafe_queue s) = idServiceCalled s) by reflexivity.
  assert (Hn' : inflight (failsafe_queue s) = inflight s) by reflexivity.
  rewrite Hq. destruct (failsafe (outQueue s)) as [|v q]; [congruence|].
  cbn -[run pendingIdService failsafe_queue].
  rewrite Hc'. destruct (configCollectorUrl s) as [curl|]; [|congruence].
  cbn -[run pendingIdService failsafe_queue]. rewrite Hi', Hid, Hx.
  cbn -[run failsafe_queue].
  match goal with
  | |- context [run cfg env evs ?s1] =>
      pose proof (run_stalled cfg env evs s1 eq_refl ltac:(cbn; first [exact Hin | rewrite Hn'; exact Hin])) as Hr;
      destruct (run cfg env evs s1) as [s2 e2]
  end.
  destruct Hr as (Hex2 & _ & _ & Hf2).
  repeat split; try assumption; try reflexivity.
Qed.

Lemma X17_witness :
  match bufferFlusher ids_cfg sample_env true ids_state with
  | (r, s1, e1) =>
      r = Throw InvalidAccessError /\ e1 = [] /\
      idServiceCalled s1 = true /\ executingQueue s1 = true /\ inflight s1 = None /\
      let '(s2, e2) := run ids_cfg sample_env [EvExecuteQueue; EvBufferFlush true] s1 in
      executingQueue s2 = true /\
      forallb (fun e => negb (drain_request e)) e2 = true
  end.
Proof.
  apply (X17_sync_flush_idService_stalls ids_cfg sample_env ids_state "http://c/id"
           [EvExecuteQueue; EvBufferFlush true]); vm_compute; (reflexivity || discriminate).
Defined.
